(** * LightSeq GPT inference: the decode loop, the slot interface and the
      strided batched GEMM operator

    A shallow embedding of
    - [lightseq/csrc/models/gpt.cc] ([Gpt::before_forward], [Gpt::Infer] and
      the slot accessors), and
    - [lightseq/csrc/ops_new/strided_batch_gemm.cpp] with its header
      ([StridedBatchGemmOp]),
    together with the properties of the design document that concern them.

    Conventions.  A C++ [int] is a [Z] and every [int] operation of the source
    is written with its 32-bit wrap-around ([int_add], [int_sub], [int_mul]).
    Heap objects ([VariableNode], the [Variable] of the source) live in a store
    indexed by their address,
    so that two holders of the same pointer see the same buffer after a swap.
    The CUDA runtime and the layer library are collaborators of the model
    code: they are the fields of the [Runtime] class and every theorem about
    [Infer] holds for all of their implementations. *)

From Stdlib Require Import ZArith Lia.
From stdpp Require Import base numbers option list strings gmap.

Local Open Scope Z_scope.

(** ** C++ [int] arithmetic *)

Definition INT_MIN : Z := - 2 ^ 31.
Definition INT_MAX : Z := 2 ^ 31 - 1.

Definition is_int (z : Z) : Prop := INT_MIN <= z <= INT_MAX.

(** Reduction of a mathematical integer to the two's complement [int] that a
    32-bit register holds. *)
Definition wrap_int (z : Z) : Z := (z + 2 ^ 31) `mod` 2 ^ 32 - 2 ^ 31.

Definition int_add (a b : Z) : Z := wrap_int (a + b).
Definition int_sub (a b : Z) : Z := wrap_int (a - b).
Definition int_mul (a b : Z) : Z := wrap_int (a * b).

(** [size_t] is 64 bits wide; converting a negative [int] gives a huge size. *)
Definition size_t_of_int (z : Z) : Z := z `mod` 2 ^ 64.
Definition size_t_mul (a b : Z) : Z := (a * b) `mod` 2 ^ 64.
Definition sizeof_int : Z := 4.

(** ** Outcomes of a call *)

Inductive outcome (A : Type) : Type :=
| Done (a : A)             (* normal return *)
| Raise (what : string)    (* throw std::runtime_error(what) *)
| Undefined                (* dereference of a pointer or index that is not there *)
| OutOfFuel.               (* the bound given to a [while (true)] ran out *)

Arguments Done {A} a.
Arguments Raise {A} what.
Arguments Undefined {A}.
Arguments OutOfFuel {A}.

Definition is_Done {A} (o : outcome A) : Prop := ∃ a, o = Done a.

(** The slot accessors throw one of two messages. *)
Definition invalid_index_error {A} (o : outcome A) : Prop :=
  o = Raise "invalid input index" ∨ o = Raise "invalid output index".

(** ** Tensor buffers and Variables *)

Inductive DataType : Type := kFloat32 | kInt32 | kFloat16.

Definition addr := nat.        (* address of a Variable node *)

Record devptr : Type := { base : nat; offset : Z }.

Definition ptr_add (p : devptr) (k : Z) : devptr :=
  {| base := base p; offset := offset p + k |}.

Record TensorBuffer : Type := {
  buf_dtype : DataType;
  buf_capacity : Z;
  buf_ptr : nat;
}.

Record VariableNode : Type := {
  var_name : string;
  var_dtype : DataType;
  var_shape : list Z;
  var_value : TensorBuffer;
  var_grad : TensorBuffer;
}.

Definition set_var_value (v : VariableNode) (b : TensorBuffer) : VariableNode :=
  {| var_name := var_name v; var_dtype := var_dtype v;
     var_shape := var_shape v; var_value := b; var_grad := var_grad v |}.

(** Modelled from the spec: [Variable::value] and [Variable::grad] ([node.h]
    is missing from the sources).  The accessors return the device pointer
    into the current buffer and change nothing. *)
Definition value (v : VariableNode) : devptr :=
  {| base := buf_ptr (var_value v); offset := 0 |}.

Definition grad (v : VariableNode) : devptr :=
  {| base := buf_ptr (var_grad v); offset := 0 |}.

(** Modelled from the spec: [Variable::swap_tensor] ([node.h] is missing from
    the sources; [gpt.cc] only calls it).  The two Variables exchange their
    buffer references; names, element types and logical shapes stay, and no
    element is copied.  The statements run in the order of a three-assignment
    exchange, so that [a = b] is covered. *)
Definition swap_tensor (a b : addr) (vars : gmap addr VariableNode)
  : option (gmap addr VariableNode) :=
  va ← vars !! a;
  vb ← vars !! b;
  let temp := var_value va in
  let vars1 := <[a := set_var_value va (var_value vb)]> vars in
  vb1 ← vars1 !! b;
  Some (<[b := set_var_value vb1 temp]> vars1).

(** Two Variables may be swapped when both exist and their buffers agree in
    element type and capacity. *)
Definition swappable (vars : gmap addr VariableNode) (a b : addr) : Prop :=
  ∃ va vb, vars !! a = Some va ∧ vars !! b = Some vb ∧
    buf_dtype (var_value va) = buf_dtype (var_value vb) ∧
    buf_capacity (var_value va) = buf_capacity (var_value vb).

(** ** The model object *)

Inductive GenerateMethod : Type := Topk | Topp | BeamSearch.

(** The fields of the weight table [tw_] that [gpt.cc] reads after
    construction. *)
Record GptWeight : Type := {
  _max_step : Z;
  _beam_size : Z;
  _hidden_size : Z;
}.

Record Gpt : Type := {
  tw_ : GptWeight;
  _max_batch_size : Z;
  _generate_method : GenerateMethod;
  _inp_tokens : addr;
  _out_tokens : addr;
  _gpt_layers_vec : list nat;
  _input_ptr : devptr;
  _gpt_out_ptr : devptr;
  input_shapes_ : gmap Z (list Z);
  output_shapes_ : gmap Z (list Z);
}.

Definition with_input_ptr (p : devptr) (g : Gpt) : Gpt :=
  {| tw_ := tw_ g; _max_batch_size := _max_batch_size g;
     _generate_method := _generate_method g;
     _inp_tokens := _inp_tokens g; _out_tokens := _out_tokens g;
     _gpt_layers_vec := _gpt_layers_vec g;
     _input_ptr := p; _gpt_out_ptr := _gpt_out_ptr g;
     input_shapes_ := input_shapes_ g; output_shapes_ := output_shapes_ g |}.

Definition with_gpt_out_ptr (p : devptr) (g : Gpt) : Gpt :=
  {| tw_ := tw_ g; _max_batch_size := _max_batch_size g;
     _generate_method := _generate_method g;
     _inp_tokens := _inp_tokens g; _out_tokens := _out_tokens g;
     _gpt_layers_vec := _gpt_layers_vec g;
     _input_ptr := _input_ptr g; _gpt_out_ptr := p;
     input_shapes_ := input_shapes_ g; output_shapes_ := output_shapes_ g |}.

(** Modelled from the spec: [LSModel::set_input_shape] and
    [LSModel::set_output_shape] ([model_base.h] is missing from the sources).
    They record the shape of one slot; [get_output_shape] reads it back. *)
Definition set_input_shape (index : Z) (shape : list Z) (g : Gpt) : Gpt :=
  {| tw_ := tw_ g; _max_batch_size := _max_batch_size g;
     _generate_method := _generate_method g;
     _inp_tokens := _inp_tokens g; _out_tokens := _out_tokens g;
     _gpt_layers_vec := _gpt_layers_vec g;
     _input_ptr := _input_ptr g; _gpt_out_ptr := _gpt_out_ptr g;
     input_shapes_ := <[index := shape]> (input_shapes_ g);
     output_shapes_ := output_shapes_ g |}.

Definition set_output_shape (index : Z) (shape : list Z) (g : Gpt) : Gpt :=
  {| tw_ := tw_ g; _max_batch_size := _max_batch_size g;
     _generate_method := _generate_method g;
     _inp_tokens := _inp_tokens g; _out_tokens := _out_tokens g;
     _gpt_layers_vec := _gpt_layers_vec g;
     _input_ptr := _input_ptr g; _gpt_out_ptr := _gpt_out_ptr g;
     input_shapes_ := input_shapes_ g;
     output_shapes_ := <[index := shape]> (output_shapes_ g) |}.

Definition get_output_shape (index : Z) (g : Gpt) : option (list Z) :=
  output_shapes_ g !! index.

(** ** The slot accessors of [gpt.cc] *)

Section Accessors.

(** The build flag that selects half precision. *)
Variable FP16_MODE : bool.

Definition set_input_ptr (index : Z) (input_ptr : devptr) (g : Gpt)
  : outcome Gpt :=
  if index =? 0 then Done (with_input_ptr input_ptr g)
  else Raise "invalid input index".

Definition set_output_ptr (index : Z) (output_ptr : devptr) (g : Gpt)
  : outcome Gpt :=
  if index =? 0 then Done (with_gpt_out_ptr output_ptr g)
  else Raise "invalid output index".

Definition get_output_ptr (index : Z) (g : Gpt) : outcome devptr :=
  if index =? 0 then Done (_gpt_out_ptr g)
  else Raise "invalid output index".

Definition get_input_max_shape (index : Z) (g : Gpt) : outcome (list Z) :=
  if index =? 0 then Done [_max_batch_size g; _max_step (tw_ g)]
  else Raise "invalid input index".

Definition get_output_max_shape (index : Z) (g : Gpt) : outcome (list Z) :=
  if index =? 0
  then Done [_max_batch_size g; _max_step (tw_ g); _hidden_size (tw_ g)]
  else Raise "invalid output index".

Definition get_input_dtype (index : Z) (g : Gpt) : outcome DataType :=
  if index =? 0 then Done kInt32
  else Raise "invalid input index".

Definition get_output_dtype (index : Z) (g : Gpt) : outcome DataType :=
  if index =? 0 then Done (if FP16_MODE then kFloat16 else kFloat32)
  else Raise "invalid output index".

End Accessors.

(** ** Layers, the runtime and the call log *)

(** The layer objects that [Gpt] owns; [GptLayer idx] is the element of
    [_gpt_layers_vec] built with layer id [idx]. *)
Inductive Layer : Type :=
| LaunchGptEmbLayer
| GptLayer (idx : nat)
| LyrNormalizeLayer
| LinearLayer
| GeneratorLayer.

Inductive cudaError_t : Type := cudaSuccess | cudaErrorCode (code : Z).

(** Calls that leave the model code, in the order they are made. *)
Inductive Event : Type :=
| EMemset (p : devptr) (byte : Z) (count : Z)
| EMemcpy (dst src : devptr) (count : Z)
| EPrintVec (p : devptr) (label : string) (n : Z)
| EBeforeForward (l : Layer) (args : list Z)
| EForward (l : Layer)
| EIsStop (stop : bool)
| ESwapTensor (a b : addr)
| ESynchronize
| ESetOutputShape (index : Z) (shape : list Z).

(** What [gpt.cc] calls but does not define: the CUDA runtime, the layers
    (their per-step set-up, their kernels, the generator's stop flag) and the
    context's barrier.  [D] is the state they keep: device memory and the
    scalar parameters of the operators. *)
Class Runtime (D : Type) : Type := {
  cudaMemset : devptr → Z → Z → D → cudaError_t * D;
  cudaMemcpy : devptr → devptr → Z → D → cudaError_t * D;
  layer_before_forward : Layer → list Z → D → D;
  layer_forward : Layer → gmap addr VariableNode → D → D;
  generator_is_stop : D → bool;
  context_synchronize : D → D;
}.

Record World (D : Type) : Type := {
  graph : gmap addr VariableNode;
  dev : D;
}.

Arguments graph {D} w.
Arguments dev {D} w.

(** Modelled from the spec: [CHECK_GPU_ERROR] ([util.h] is missing from the
    sources).  A failed device call surfaces to the caller as an error. *)
Definition CHECK_GPU_ERROR_what : string := "[CUDA][ERROR]".

Definition is_layer_call (e : Event) : bool :=
  match e with
  | EBeforeForward _ _ | EForward _ => true
  | _ => false
  end.

(** One execution of the whole layer stack ends with the generator's
    [forward()]. *)
Definition is_forward_pass (e : Event) : bool :=
  match e with
  | EForward GeneratorLayer => true
  | _ => false
  end.

Fixpoint count_events (p : Event → bool) (tr : list Event) : nat :=
  match tr with
  | [] => 0%nat
  | e :: tr => ((if p e then 1 else 0) + count_events p tr)%nat
  end.

Definition forward_passes (tr : list Event) : nat :=
  count_events is_forward_pass tr.

(** A decode transition is a forward pass after the prefill pass. *)
Definition decode_transitions (tr : list Event) : nat :=
  (forward_passes tr - 1)%nat.

Section Model.

Context {D : Type} `{!Runtime D}.

(** The build flag around the device calls of [Infer]. *)
Variable LIGHTSEQ_cuda : bool.

(** The world together with the log of the calls made so far. *)
Definition Run : Type := World D * list Event.

Definition log (e : Event) (r : Run) : Run := (r.1, r.2 ++ [e]).

Definition on_dev (f : D → D) (r : Run) : Run :=
  ({| graph := graph r.1; dev := f (dev r.1) |}, r.2).

Definition call_before_forward (l : Layer) (args : list Z) (r : Run) : Run :=
  log (EBeforeForward l args) (on_dev (layer_before_forward l args) r).

Definition call_forward (l : Layer) (r : Run) : Run :=
  log (EForward l) (on_dev (layer_forward l (graph r.1)) r).

Definition call_swap_tensor (a b : addr) (r : Run) : option Run :=
  vars ← swap_tensor a b (graph r.1);
  Some (log (ESwapTensor a b) ({| graph := vars; dev := dev r.1 |}, r.2)).

(** [Gpt::before_forward] *)
Definition before_forward (g : Gpt) (batch_size seq_len steps : Z) (r : Run)
  : Run :=
  let beam := _beam_size (tw_ g) in
  if steps =? 0 then
    let r := call_before_forward LaunchGptEmbLayer
               [int_mul batch_size beam; seq_len; 0] r in
    let r := foldl (λ r iter, call_before_forward (GptLayer iter)
               [int_mul batch_size beam; seq_len; 0] r) r (_gpt_layers_vec g) in
    let r := call_before_forward LyrNormalizeLayer
               [int_mul batch_size beam; seq_len] r in
    let r := call_before_forward LinearLayer
               [int_mul batch_size beam; seq_len] r in
    call_before_forward GeneratorLayer [batch_size; seq_len; 0] r
  else
    let r := call_before_forward LaunchGptEmbLayer
               [int_mul batch_size beam; 1;
                int_sub (int_add seq_len steps) 1] r in
    let r := foldl (λ r iter, call_before_forward (GptLayer iter)
               [int_mul batch_size beam; 1; int_add seq_len steps] r)
               r (_gpt_layers_vec g) in
    let r := call_before_forward LyrNormalizeLayer
               [int_mul batch_size beam; 1] r in
    let r := call_before_forward LinearLayer
               [int_mul batch_size beam; 1] r in
    call_before_forward GeneratorLayer
      [batch_size; 1; int_sub (int_add seq_len steps) 1] r.

(** The five [forward()] statements at the head of the loop body. *)
Definition forward_layers (g : Gpt) (r : Run) : Run :=
  let r := call_forward LaunchGptEmbLayer r in
  let r := foldl (λ r iter, call_forward (GptLayer iter) r)
             r (_gpt_layers_vec g) in
  let r := call_forward LyrNormalizeLayer r in
  let r := call_forward LinearLayer r in
  call_forward GeneratorLayer r.

(** The [while (true)] of [Gpt::Infer]; the result carries the final value
    of the local [steps]. *)
Fixpoint Infer_loop (fuel : nat) (g : Gpt) (batch_size seq_len steps : Z)
    (r : Run) : outcome (Z * Run) :=
  match fuel with
  | O => OutOfFuel
  | S fuel =>
    let r := before_forward g batch_size seq_len steps r in
    let r := forward_layers g r in
    let stop := generator_is_stop (dev r.1) in
    let r := log (EIsStop stop) r in
    if stop then Done (steps, r)
    else
      (* if (_generate_method == GenerateMethod::BeamSearch) { } *)
      match call_swap_tensor (_inp_tokens g) (_out_tokens g) r with
      | None => Undefined
      | Some r =>
        if steps =? 1 then Done (steps, r)
        else Infer_loop fuel g batch_size seq_len (int_add steps 1) r
      end
  end.

(** The body of the two nested [for] loops, for the rows still to copy. *)
Fixpoint copy_prompt_rows (g : Gpt) (seq_len : Z) (rows : list (Z * Z))
    (r : Run) : outcome Run :=
  match rows with
  | [] => Done r
  | (i, j) :: rows =>
    match graph r.1 !! _inp_tokens g with
    | None => Undefined
    | Some inp =>
      let row := ptr_add (value inp)
                   (int_mul (int_add (int_mul i (_beam_size (tw_ g))) j)
                            (_max_step (tw_ g))) in
      let count := size_t_mul (size_t_of_int seq_len) sizeof_int in
      let '(err, d) := cudaMemcpy row (_input_ptr g) count (dev r.1) in
      let r := log (EMemcpy row (_input_ptr g) count)
                 ({| graph := graph r.1; dev := d |}, r.2) in
      match err with
      | cudaSuccess =>
        let r := log (EPrintVec (_input_ptr g) "original _input_ptr" seq_len) r in
        let r := log (EPrintVec row "copied _input_ptr" (int_add seq_len 1)) r in
        copy_prompt_rows g seq_len rows r
      | cudaErrorCode _ => Raise CHECK_GPU_ERROR_what
      end
    end
  end.

Definition prompt_rows (g : Gpt) (batch_size : Z) : list (Z * Z) :=
  i ← seqZ 0 batch_size; j ← seqZ 0 (_beam_size (tw_ g)); [(i, j)].

(** The statements of [Infer] before the loop. *)
Definition Infer_prelude (g : Gpt) (batch_size seq_len : Z) (r : Run)
  : outcome Run :=
  if LIGHTSEQ_cuda then
    match graph r.1 !! _inp_tokens g with
    | None => Undefined
    | Some inp =>
      let count :=
        size_t_mul
          (size_t_of_int
             (int_mul (int_mul batch_size (_beam_size (tw_ g)))
                      (_max_step (tw_ g))))
          sizeof_int in
      let r := log (EMemset (value inp) 345 count)
                 (on_dev (λ d, (cudaMemset (value inp) 345 count d).2) r) in
      copy_prompt_rows g seq_len (prompt_rows g batch_size) r
    end
  else Done r.

(** [Gpt::Infer] *)
Definition Infer (fuel : nat) (g : Gpt) (w : World D)
  : outcome (Gpt * World D * list Event) :=
  match input_shapes_ g !! 0 with
  | Some (batch_size :: seq_len :: _) =>
    match Infer_prelude g batch_size seq_len (w, []) with
    | Done r =>
      match Infer_loop fuel g batch_size seq_len 0 r with
      | Done (steps, r) =>
        let r := log ESynchronize (on_dev context_synchronize r) in
        let shape := [batch_size; int_add seq_len steps] in
        let r := log (ESetOutputShape 0 shape) r in
        Done (set_output_shape 0 shape g, r.1, r.2)
      | Raise what => Raise what
      | Undefined => Undefined
      | OutOfFuel => OutOfFuel
      end
    | Raise what => Raise what
    | Undefined => Undefined
    | OutOfFuel => OutOfFuel
    end
  | _ => Undefined
  end.

End Model.

(** ** The execution context *)

(** The field of [Context] that the operators consult. *)
Record LSContext : Type := { _built : bool }.

Definition is_built (ctx : LSContext) : bool := _built ctx.

(** ** [StridedBatchGemmOp] *)

Inductive MATRIX_OP : Type := Transpose | NonTranspose.

Inductive cublasOperation_t : Type := CUBLAS_OP_N | CUBLAS_OP_T.

Module StridedBatchGemmOp.
Section Op.

(** [float] stands for the C++ [float] of [_alpha] and [_beta]; [D] is the
    device state, as for the model. *)
Context {float : Type} {D : Type}.

Record t : Type := {
  _m : Z;
  _n : Z;
  _k : Z;
  _max_ele_num : Z;
  _batch_heads : Z;
  _alpha : float;
  _beta : float;
  _gemm_algos : Z * Z * Z;
  _max_seq : Z;
  _op_A : cublasOperation_t;
  _op_B : cublasOperation_t;
  _op_AA : MATRIX_OP;
  _op_BB : MATRIX_OP;
  parents : list addr;
  children : list addr;
}.

(** The arguments of one [cublas_strided_batched_gemm] launch. *)
Record GemmCall : Type := {
  call_m : Z; call_n : Z; call_k : Z;
  call_alpha : float; call_beta : float;
  call_A : devptr; call_B : devptr; call_C : devptr;
  call_op_A : cublasOperation_t; call_op_B : cublasOperation_t;
  call_stride_A : Z; call_stride_B : Z; call_stride_C : Z;
  call_batch : Z; call_algo : Z;
}.

(** The kernel wrapper ([cublas_wrappers.h], not part of the sources). *)
Variable cublas_strided_batched_gemm : GemmCall → D → D.

Variable LIGHTSEQ_cuda : bool.

Definition parent (op : t) (i : nat) (w : World D) : option VariableNode :=
  a ← parents op !! i; graph w !! a.

Definition child (op : t) (i : nat) (w : World D) : option VariableNode :=
  a ← children op !! i; graph w !! a.

(** The operator has been wired: [operator()] gave it two parents and one
    child, and the three Variables exist. *)
Definition wired (op : t) (w : World D) : Prop :=
  is_Some (parent op 0 w) ∧ is_Some (parent op 1 w) ∧ is_Some (child op 0 w).

Definition with_params (mm nn kk batch_heads max_seq : Z) (op : t) : t :=
  {| _m := mm; _n := nn; _k := kk; _max_ele_num := _max_ele_num op;
     _batch_heads := batch_heads; _alpha := _alpha op; _beta := _beta op;
     _gemm_algos := _gemm_algos op; _max_seq := max_seq;
     _op_A := _op_A op; _op_B := _op_B op;
     _op_AA := _op_AA op; _op_BB := _op_BB op;
     parents := parents op; children := children op |}.

(** [before_forward(mm, nn, kk, batch_heads)] *)
Definition before_forward (mm nn kk batch_heads : Z) (op : t) : t :=
  with_params mm nn kk batch_heads (-1) op.

(** [before_forward(mm, nn, kk, batch_heads, max_seq)] *)
Definition before_forward_max_seq (mm nn kk batch_heads max_seq : Z) (op : t)
  : t :=
  with_params mm nn kk batch_heads max_seq op.

(** [before_backward(mm, nn, kk, batch_heads)] *)
Definition before_backward (mm nn kk batch_heads : Z) (op : t) : t :=
  with_params mm nn kk batch_heads (_max_seq op) op.

Definition launch (c : GemmCall) (w : World D) : World D :=
  {| graph := graph w; dev := cublas_strided_batched_gemm c (dev w) |}.

(** [StridedBatchGemmOp::forward]: the operator, the world and the kernels
    launched. *)
Definition forward (ctx : LSContext) (op : t) (w : World D)
  : outcome (t * World D * list GemmCall) :=
  match parent op 0 w, parent op 1 w, child op 0 w with
  | Some pa, Some pb, Some ch =>
    let _buffer_a := value pa in
    let _buffer_b := value pb in
    let output := value ch in
    if negb (is_built ctx) then Done (op, w, [])
    else
      let stride_a := int_mul (_m op) (_k op) in
      let stride_b := int_mul (_n op) (_k op) in
      let stride_c := int_mul (_m op) (_n op) in
      let stride_a :=
        if 0 <? _max_seq op
        then int_mul (_max_seq op)
               (match _op_AA op with NonTranspose => _m op | Transpose => _k op end)
        else stride_a in
      if LIGHTSEQ_cuda then
        let c := {| call_m := _m op; call_n := _n op; call_k := _k op;
                    call_alpha := _alpha op; call_beta := _beta op;
                    call_A := _buffer_a; call_B := _buffer_b; call_C := output;
                    call_op_A := _op_A op; call_op_B := _op_B op;
                    call_stride_A := stride_a; call_stride_B := stride_b;
                    call_stride_C := stride_c;
                    call_batch := _batch_heads op;
                    call_algo := (_gemm_algos op).1.1 |} in
        Done (op, launch c w, [c])
      else Done (op, w, [])
  | _, _, _ => Undefined
  end.

Definition flip (o : cublasOperation_t) : cublasOperation_t :=
  match o with CUBLAS_OP_T => CUBLAS_OP_N | CUBLAS_OP_N => CUBLAS_OP_T end.

(** [StridedBatchGemmOp::backward] *)
Definition backward (ctx : LSContext) (op : t) (w : World D)
  : outcome (t * World D * list GemmCall) :=
  let mb := match _op_AA op with Transpose => _k op | NonTranspose => _m op end in
  let kb := match _op_AA op with Transpose => _m op | NonTranspose => _k op end in
  let stride_a := int_mul mb (_n op) in
  let stride_b := int_mul (_n op) kb in
  let stride_c := int_mul (_m op) (_k op) in
  match parent op 0 w, parent op 1 w, child op 0 w with
  | Some pa, Some pb, Some ch =>
    let _buffer_a := value pa in
    let _buffer_b := value pb in
    let d_output := grad ch in
    let inpGradA := grad pa in
    let inpGradB := grad pb in
    if negb (is_built ctx) then Done (op, w, [])
    else if LIGHTSEQ_cuda then
      let op_b := flip (_op_B op) in
      let c1 := {| call_m := mb; call_n := kb; call_k := _n op;
                   call_alpha := _alpha op; call_beta := _beta op;
                   call_A := match _op_A op with
                             | CUBLAS_OP_T => _buffer_b | CUBLAS_OP_N => d_output end;
                   call_B := match _op_A op with
                             | CUBLAS_OP_T => d_output | CUBLAS_OP_N => _buffer_b end;
                   call_C := inpGradA;
                   call_op_A := CUBLAS_OP_N; call_op_B := op_b;
                   call_stride_A := stride_a; call_stride_B := stride_b;
                   call_stride_C := stride_c;
                   call_batch := _batch_heads op;
                   call_algo := (_gemm_algos op).1.2 |} in
      let op_a := flip (_op_A op) in
      let stride_a := int_mul (_m op) (_k op) in
      let stride_b := int_mul (_m op) (_n op) in
      let stride_c := int_mul (_n op) (_k op) in
      let c2 := {| call_m := _k op; call_n := _n op; call_k := _m op;
                   call_alpha := _alpha op; call_beta := _beta op;
                   call_A := _buffer_a; call_B := d_output; call_C := inpGradB;
                   call_op_A := op_a; call_op_B := CUBLAS_OP_N;
                   call_stride_A := stride_a; call_stride_B := stride_b;
                   call_stride_C := stride_c;
                   call_batch := _batch_heads op;
                   call_algo := (_gemm_algos op).2 |} in
      Done (op, launch c2 (launch c1 w), [c1; c2])
    else Done (op, w, [])
  | _, _, _ => Undefined
  end.

(** [StridedBatchGemmOp::operator()].  [v] is the node that
    [new Variable("StridedBatchGemmOp_out", ...)] builds (the constructor of
    [Variable] is not part of the sources) and [result] the address it gets;
    the operator records its two parents and its child. *)
Definition wire (result : addr) (v : VariableNode) (inpA inpB : addr) (op : t)
    (w : World D) : t * World D * addr :=
  ({| _m := _m op; _n := _n op; _k := _k op; _max_ele_num := _max_ele_num op;
      _batch_heads := _batch_heads op; _alpha := _alpha op; _beta := _beta op;
      _gemm_algos := _gemm_algos op; _max_seq := _max_seq op;
      _op_A := _op_A op; _op_B := _op_B op;
      _op_AA := _op_AA op; _op_BB := _op_BB op;
      parents := [inpA; inpB]; children := [result] |},
   {| graph := <[result := v]> (graph w); dev := dev w |},
   result).

End Op.
End StridedBatchGemmOp.

(** ** The operators that are given by their headers *)

Module RMSLayerNormalizeOp.

Record t : Type := {
  _max_batch_tokens : Z;
  _hidden_dim : Z;
  _batch_tokens : Z;
  _use_mean : bool;
}.

(** [void backward() override {}] *)
Definition backward {D : Type} (ctx : LSContext) (op : t) (w : World D)
  : outcome (t * World D * list Event) :=
  Done (op, w, []).

End RMSLayerNormalizeOp.

Module BeamSearchTopOp.

Record t : Type := {
  _max_batch_size : Z;
  _max_step : Z;
  _trg_vocab_size : Z;
  _length_norm : Z;
  _cur_step : Z;
  _step_token_num : Z;
  _beam_size : Z;
  _host_can_num_batch : Z;
  _batch_size : Z;
  _end_id : Z;
}.

Definition before_forward (batch_size length_norm cur_step step_token_num : Z)
    (op : t) : t :=
  {| _max_batch_size := _max_batch_size op; _max_step := _max_step op;
     _trg_vocab_size := _trg_vocab_size op; _length_norm := length_norm;
     _cur_step := cur_step; _step_token_num := step_token_num;
     _beam_size := _beam_size op;
     _host_can_num_batch := _host_can_num_batch op;
     _batch_size := batch_size; _end_id := _end_id op |}.

(** [void backward() override {}] *)
Definition backward {D : Type} (ctx : LSContext) (op : t) (w : World D)
  : outcome (t * World D * list Event) :=
  Done (op, w, []).

Definition can_num_batch (op : t) : Z := _host_can_num_batch op.

End BeamSearchTopOp.

(** ** The calls of one pass, as the design document lists them *)

(** [forward()] on every layer, in the order of the network. *)
Definition forward_calls (g : Gpt) : list Event :=
  EForward LaunchGptEmbLayer ::
  map (λ idx, EForward (GptLayer idx)) (_gpt_layers_vec g) ++
  [EForward LyrNormalizeLayer; EForward LinearLayer; EForward GeneratorLayer].

(** The set-up calls of the prefill pass for batch [B] and prompt length
    [L]. *)
Definition prefill_setup_calls (g : Gpt) (B L : Z) : list Event :=
  let beam := _beam_size (tw_ g) in
  EBeforeForward LaunchGptEmbLayer [B * beam; L; 0] ::
  map (λ idx, EBeforeForward (GptLayer idx) [B * beam; L; 0])
      (_gpt_layers_vec g) ++
  [EBeforeForward LyrNormalizeLayer [B * beam; L];
   EBeforeForward LinearLayer [B * beam; L];
   EBeforeForward GeneratorLayer [B; L; 0]].

(** The set-up calls of the decode pass number [s]: the transformer blocks
    get [(B * beam, 1, L + s)], the embedding one position less, the
    normalisation and the projection no position, the generator the plain
    batch size. *)
Definition decode_setup_calls (g : Gpt) (B L s : Z) : list Event :=
  let beam := _beam_size (tw_ g) in
  EBeforeForward LaunchGptEmbLayer [B * beam; 1; L + s - 1] ::
  map (λ idx, EBeforeForward (GptLayer idx) [B * beam; 1; L + s])
      (_gpt_layers_vec g) ++
  [EBeforeForward LyrNormalizeLayer [B * beam; 1];
   EBeforeForward LinearLayer [B * beam; 1];
   EBeforeForward GeneratorLayer [B; 1; L + s - 1]].

(** One decode transition: the stop check came back negative, the token
    Variables are swapped, every layer is set up and then every layer runs. *)
Definition decode_transition_calls (g : Gpt) (B L s : Z) : list Event :=
  [EIsStop false; ESwapTensor (_inp_tokens g) (_out_tokens g)] ++
  decode_setup_calls g B L s ++ forward_calls g.

(** The set-up calls of a decode pass if every layer were given
    [(B * beam, 1, L + s)]. *)
Definition uniform_decode_setup_calls (g : Gpt) (B L s : Z) : list Event :=
  let beam := _beam_size (tw_ g) in
  EBeforeForward LaunchGptEmbLayer [B * beam; 1; L + s] ::
  map (λ idx, EBeforeForward (GptLayer idx) [B * beam; 1; L + s])
      (_gpt_layers_vec g) ++
  [EBeforeForward LyrNormalizeLayer [B * beam; 1; L + s];
   EBeforeForward LinearLayer [B * beam; 1; L + s];
   EBeforeForward GeneratorLayer [B * beam; 1; L + s]].

(** The steps [1 .. n]. *)
Definition decode_steps (n : nat) : list Z := Z.of_nat <$> seq 1 n.

(** ** A test double for the runtime *)

(** Device memory is a table of [int] arrays.  The generator double writes
    the running sequence with the token [99] appended into the buffer of the
    output-token Variable, for the first [budget] passes; with [budget = None]
    it emits for ever and never reports stop.  [stop_with_last] chooses
    whether the stop flag goes up on the last emitting pass or on the pass
    after it. *)
Module Stub.

Record Dev : Type := {
  mem : gmap nat (list Z);
  gen_args : list Z;
  gen_passes : nat;
}.

Definition with_mem (m : gmap nat (list Z)) (d : Dev) : Dev :=
  {| mem := m; gen_args := gen_args d; gen_passes := gen_passes d |}.

Definition memset_word (byte : Z) : Z :=
  let b := byte `mod` 256 in
  wrap_int (b + b * 2 ^ 8 + b * 2 ^ 16 + b * 2 ^ 24).

Definition in_range (buf : list Z) (off cnt : Z) : bool :=
  (0 <=? off) && (0 <=? cnt) && (off + cnt <=? Z.of_nat (length buf)).

Definition write_range (buf : list Z) (off : nat) (vals : list Z) : list Z :=
  take off buf ++ vals ++ drop (off + length vals) buf.

Definition stub_memset (p : devptr) (byte count : Z) (d : Dev)
  : cudaError_t * Dev :=
  let cnt := count `div` sizeof_int in
  match mem d !! base p with
  | Some buf =>
    if in_range buf (offset p) cnt
    then (cudaSuccess,
          with_mem (<[base p := write_range buf (Z.to_nat (offset p))
                                  (replicate (Z.to_nat cnt) (memset_word byte))]>
                      (mem d)) d)
    else (cudaErrorCode 1, d)
  | None => (cudaErrorCode 1, d)
  end.

Definition stub_memcpy (dst src : devptr) (count : Z) (d : Dev)
  : cudaError_t * Dev :=
  let cnt := count `div` sizeof_int in
  match mem d !! base dst, mem d !! base src with
  | Some dbuf, Some sbuf =>
    if in_range dbuf (offset dst) cnt && in_range sbuf (offset src) cnt
    then (cudaSuccess,
          with_mem (<[base dst := write_range dbuf (Z.to_nat (offset dst))
                        (take (Z.to_nat cnt) (drop (Z.to_nat (offset src)) sbuf))]>
                      (mem d)) d)
    else (cudaErrorCode 1, d)
  | _, _ => (cudaErrorCode 1, d)
  end.

Definition stub_before_forward (l : Layer) (args : list Z) (d : Dev) : Dev :=
  match l with
  | GeneratorLayer =>
    {| mem := mem d; gen_args := args; gen_passes := gen_passes d |}
  | _ => d
  end.

Definition emits (budget : option nat) (pass : nat) : bool :=
  match budget with
  | None => true
  | Some k => bool_decide (pass ≤ k)%nat
  end.

(** The generator was wired with the Variable at [inp] as its sequence input
    and the Variable at [out] as its output. *)
Definition stub_forward (inp out : addr) (budget : option nat) (l : Layer)
    (vars : gmap addr VariableNode) (d : Dev) : Dev :=
  match l with
  | GeneratorLayer =>
    let pass := S (gen_passes d) in
    let d := {| mem := mem d; gen_args := gen_args d; gen_passes := pass |} in
    if emits budget pass then
      match vars !! inp, vars !! out, gen_args d with
      | Some vi, Some vo, [_; len; off] =>
        match mem d !! buf_ptr (var_value vi) with
        | Some ibuf =>
          with_mem (<[buf_ptr (var_value vo) :=
                        <[Z.to_nat (len + off) := 99]> ibuf]> (mem d)) d
        | None => d
        end
      | _, _, _ => d
      end
    else d
  | _ => d
  end.

Definition stub_is_stop (budget : option nat) (stop_with_last : bool) (d : Dev)
  : bool :=
  match budget with
  | None => false
  | Some k =>
    if stop_with_last then bool_decide (k ≤ gen_passes d)%nat
    else bool_decide (k < gen_passes d)%nat
  end.

Definition runtime (inp out : addr) (budget : option nat)
    (stop_with_last : bool) : Runtime Dev :=
  {| cudaMemset := stub_memset;
     cudaMemcpy := stub_memcpy;
     layer_before_forward := stub_before_forward;
     layer_forward := stub_forward inp out budget;
     generator_is_stop := stub_is_stop budget stop_with_last;
     context_synchronize := id |}.

Definition token_buffer (ptr : nat) (capacity : Z) : TensorBuffer :=
  {| buf_dtype := kInt32; buf_capacity := capacity; buf_ptr := ptr |}.

Definition token_variable (name : string) (ptr : nat) (capacity : Z)
  : VariableNode :=
  {| var_name := name; var_dtype := kInt32; var_shape := [capacity];
     var_value := token_buffer ptr capacity;
     var_grad := token_buffer (ptr + 100) 0 |}.

(** A model with two transformer blocks, its token Variables at the
    addresses 0 and 1 over the device buffers 0 and 1, the caller's input in
    buffer 10 and the caller's output buffer 11. *)
Definition model (max_batch max_step beam : Z) (shape : list Z) : Gpt :=
  {| tw_ := {| _max_step := max_step; _beam_size := beam; _hidden_size := 4 |};
     _max_batch_size := max_batch;
     _generate_method := Topk;
     _inp_tokens := 0%nat; _out_tokens := 1%nat;
     _gpt_layers_vec := [0%nat; 1%nat];
     _input_ptr := {| base := 10; offset := 0 |};
     _gpt_out_ptr := {| base := 11; offset := 0 |};
     input_shapes_ := {[ 0 := shape ]};
     output_shapes_ := ∅ |}.

Definition world (capacity : nat) (prompt : list Z) : World Dev :=
  {| graph := {[ 0%nat := token_variable "inp_tokens" 0 (Z.of_nat capacity);
                 1%nat := token_variable "out_tokens" 1 (Z.of_nat capacity) ]};
     dev := {| mem := {[ 0%nat := replicate capacity 0;
                         1%nat := replicate capacity 0;
                         10%nat := prompt;
                         11%nat := replicate capacity 0 ]};
               gen_args := []; gen_passes := 0 |} |}.

(** The contents of the buffer that the Variable at [a] currently holds. *)
Definition tokens_of (w : World Dev) (a : addr) : option (list Z) :=
  v ← graph w !! a; mem (dev w) !! buf_ptr (var_value v).

(** A GEMM operator wired to the two token Variables, with a kernel double
    that leaves a mark in the output buffer. *)
Definition gemm_kernel (c : @StridedBatchGemmOp.GemmCall Z) (d : Dev) : Dev :=
  with_mem (<[base (StridedBatchGemmOp.call_C c) :=
                [StridedBatchGemmOp.call_m c; StridedBatchGemmOp.call_n c;
                 StridedBatchGemmOp.call_k c]]> (mem d)) d.

Definition gemm_op : @StridedBatchGemmOp.t Z :=
  {| StridedBatchGemmOp._m := 2; StridedBatchGemmOp._n := 3;
     StridedBatchGemmOp._k := 4; StridedBatchGemmOp._max_ele_num := 8;
     StridedBatchGemmOp._batch_heads := 1;
     StridedBatchGemmOp._alpha := 1; StridedBatchGemmOp._beta := 0;
     StridedBatchGemmOp._gemm_algos := (99, 99, 99);
     StridedBatchGemmOp._max_seq := -1;
     StridedBatchGemmOp._op_A := CUBLAS_OP_N;
     StridedBatchGemmOp._op_B := CUBLAS_OP_N;
     StridedBatchGemmOp._op_AA := NonTranspose;
     StridedBatchGemmOp._op_BB := NonTranspose;
     StridedBatchGemmOp.parents := [0%nat; 1%nat];
     StridedBatchGemmOp.children := [1%nat] |}.

Definition run (budget : option nat) (stop_with_last : bool) (fuel : nat)
    (g : Gpt) (w : World Dev) : outcome (Gpt * World Dev * list Event) :=
  @Infer Dev (runtime 0%nat 1%nat budget stop_with_last) true fuel g w.

End Stub.

(** ** The calls of the model code, as it computes them *)

(** The set-up calls that [Gpt::before_forward] makes, with the arithmetic of
    the source. *)
Definition before_forward_calls (g : Gpt) (batch_size seq_len steps : Z)
  : list Event :=
  let beam := _beam_size (tw_ g) in
  if steps =? 0 then
    EBeforeForward LaunchGptEmbLayer [int_mul batch_size beam; seq_len; 0] ::
    map (λ iter, EBeforeForward (GptLayer iter)
                   [int_mul batch_size beam; seq_len; 0]) (_gpt_layers_vec g) ++
    [EBeforeForward LyrNormalizeLayer [int_mul batch_size beam; seq_len];
     EBeforeForward LinearLayer [int_mul batch_size beam; seq_len];
     EBeforeForward GeneratorLayer [batch_size; seq_len; 0]]
  else
    EBeforeForward LaunchGptEmbLayer
      [int_mul batch_size beam; 1; int_sub (int_add seq_len steps) 1] ::
    map (λ iter, EBeforeForward (GptLayer iter)
                   [int_mul batch_size beam; 1; int_add seq_len steps])
        (_gpt_layers_vec g) ++
    [EBeforeForward LyrNormalizeLayer [int_mul batch_size beam; 1];
     EBeforeForward LinearLayer [int_mul batch_size beam; 1];
     EBeforeForward GeneratorLayer
       [batch_size; 1; int_sub (int_add seq_len steps) 1]].

Definition pass_calls (g : Gpt) (batch_size seq_len steps : Z) : list Event :=
  before_forward_calls g batch_size seq_len steps ++ forward_calls g.

Definition is_stop_signal (e : Event) : bool :=
  match e with
  | EIsStop true => true
  | _ => false
  end.

Definition is_device_call (e : Event) : bool :=
  match e with
  | EMemset _ _ _ | EMemcpy _ _ _ | EPrintVec _ _ _ => true
  | _ => false
  end.

Definition is_epilogue_call (e : Event) : bool :=
  match e with
  | ESynchronize | ESetOutputShape _ _ => true
  | _ => false
  end.

(** ** Further parts of the sources *)

Definition is_swap (e : Event) : bool :=
  match e with
  | ESwapTensor _ _ => true
  | _ => false
  end.

Definition is_memset (e : Event) : bool :=
  match e with
  | EMemset _ _ _ => true
  | _ => false
  end.

Definition is_memcpy (e : Event) : bool :=
  match e with
  | EMemcpy _ _ _ => true
  | _ => false
  end.

(** The layer that a set-up or a run call addresses. *)
Definition layer_of (e : Event) : option Layer :=
  match e with
  | EBeforeForward l _ | EForward l => Some l
  | _ => None
  end.

(** The layers in the order of the network. *)
Definition network_order (g : Gpt) : list Layer :=
  LaunchGptEmbLayer :: map GptLayer (_gpt_layers_vec g) ++
  [LyrNormalizeLayer; LinearLayer; GeneratorLayer].

(** The argument of the two [malloc_memory] calls that end the constructor:
    the number of elements of each token buffer. *)
Definition token_buffer_elements (g : Gpt) : Z :=
  int_mul (int_mul (_max_batch_size g) (_beam_size (tw_ g))) (_max_step (tw_ g)).

(** The element offset of the row of batch entry [i] and beam [j] in the
    input-token buffer, as [Infer] computes it for the copy of the prompt. *)
Definition row_offset (g : Gpt) (i j : Z) : Z :=
  int_mul (int_add (int_mul i (_beam_size (tw_ g))) j) (_max_step (tw_ g)).

(** The sizes of the model are non-negative and the token buffer can be
    counted in an [int]. *)
Definition sizes_fit (g : Gpt) : Prop :=
  0 <= _max_batch_size g ∧ 0 <= _beam_size (tw_ g) ∧ 0 <= _max_step (tw_ g) ∧
  _max_batch_size g * _beam_size (tw_ g) <= INT_MAX ∧
  _max_batch_size g * _beam_size (tw_ g) * _max_step (tw_ g) <= INT_MAX.

(** The copy of the prompt to the row of batch entry [ij.1] and beam [ij.2]
    of the buffer of the input-token Variable [v]: the [cudaMemcpy] of
    [Infer], from the caller's input pointer itself. *)
Definition prompt_copy (g : Gpt) (L : Z) (v : VariableNode) (ij : Z * Z)
  : Event :=
  EMemcpy (ptr_add (value v) (row_offset g ij.1 ij.2)) (_input_ptr g)
          (size_t_mul (size_t_of_int L) sizeof_int).

(** The three calls of one turn of the inner [for] loop of [Infer]: the copy
    and the two [print_vec]; the second prints [seq_len + 1] elements of the
    row. *)
Definition row_calls (g : Gpt) (L : Z) (v : VariableNode) (ij : Z * Z)
  : list Event :=
  [prompt_copy g L v ij;
   EPrintVec (_input_ptr g) "original _input_ptr" L;
   EPrintVec (ptr_add (value v) (row_offset g ij.1 ij.2)) "copied _input_ptr"
             (int_add L 1)].

(** The device calls of [Infer] under [LIGHTSEQ_cuda], in the order of the
    source: the [cudaMemset] of the buffer of the input-token Variable, then
    the calls of every row, batch entry by batch entry and beam by beam. *)
Definition prelude_calls (g : Gpt) (B L : Z) (v : VariableNode) : list Event :=
  EMemset (value v) 345
    (size_t_mul
       (size_t_of_int
          (int_mul (int_mul B (_beam_size (tw_ g))) (_max_step (tw_ g))))
       sizeof_int) ::
  (prompt_rows g B ≫= row_calls g L v).

(** The call [_generator_layer->is_stop()], whatever it returns, and the
    call that returns false. *)
Definition is_stop_check (e : Event) : bool :=
  match e with
  | EIsStop _ => true
  | _ => false
  end.

Definition is_negative_stop (e : Event) : bool :=
  match e with
  | EIsStop false => true
  | _ => false
  end.

(** In the log [tr] every call that satisfies [p] is followed, immediately,
    by a call that satisfies [Q]; in particular no call that satisfies [p]
    is the last one. *)
Fixpoint each_followed_by (p : Event → bool) (Q : Event → Prop)
    (tr : list Event) : Prop :=
  match tr with
  | [] => True
  | e :: rest =>
    (p e = true → match rest with
                  | e' :: _ => Q e'
                  | [] => False
                  end) ∧
    each_followed_by p Q rest
  end.

(** ** The example driver *)

Module Example.

(** [rand() % 9000 + 1000] *)
Definition next_token (r : Z) : Z := int_add (Z.rem r 9000) 1000.

(** The two loops that fill [host_input].  [rand k] is the value of the
    [k]-th call of [rand()]; the driver calls it once per element and
    nowhere else, so the call that fills an element is numbered by the
    length of the vector so far. *)
Definition fill_host_input (rand : nat → Z) (max_batch_size batch_seq_len : Z)
  : list Z :=
  foldl (λ host_input _, host_input ++ [next_token (rand (length host_input))])
        []
        (i ← seqZ 0 max_batch_size; j ← seqZ 0 batch_seq_len; [(i, j)]).

(** [sizeof(int) * max_batch_size * batch_seq_len], the size of the device
    input buffer and of the copy into it. *)
Definition input_bytes (max_batch_size batch_seq_len : Z) : Z :=
  size_t_mul (size_t_mul sizeof_int (size_t_of_int max_batch_size))
             (size_t_of_int batch_seq_len).

End Example.

(** * Properties *)

(** ** Arithmetic *)

Lemma wrap_int_id (z : Z) : is_int z → wrap_int z = z.
Proof.
  unfold is_int, INT_MIN, INT_MAX, wrap_int. intros Hz.
  rewrite Z.mod_small; lia.
Qed.

Lemma int_add_exact (a b : Z) : is_int (a + b) → int_add a b = a + b.
Proof. apply wrap_int_id. Qed.

Lemma int_sub_exact (a b : Z) : is_int (a - b) → int_sub a b = a - b.
Proof. apply wrap_int_id. Qed.

Lemma int_mul_exact (a b : Z) : is_int (a * b) → int_mul a b = a * b.
Proof. apply wrap_int_id. Qed.

Lemma int_add_0_1 : int_add 0 1 = 1.
Proof. reflexivity. Qed.

(** ** Swapping Variables *)

Lemma set_var_value_same (v : VariableNode) : set_var_value v (var_value v) = v.
Proof. by destruct v. Qed.

Lemma set_var_value_twice (v : VariableNode) (x y : TensorBuffer) :
  set_var_value (set_var_value v x) y = set_var_value v y.
Proof. done. Qed.

Lemma swap_tensor_Some (vars : gmap addr VariableNode) (a b : addr)
    (va vb : VariableNode) :
  vars !! a = Some va → vars !! b = Some vb →
  swap_tensor a b vars =
    Some (<[b := set_var_value (if decide (a = b)
                                then set_var_value va (var_value vb) else vb)
                               (var_value va)]>
            (<[a := set_var_value va (var_value vb)]> vars)).
Proof.
  intros Ha Hb. unfold swap_tensor. rewrite Ha, Hb. simpl.
  rewrite lookup_insert. destruct (decide (a = b)) as [->|Hne]; simpl; [done|].
  by rewrite Hb.
Qed.

Lemma swap_tensor_is_Some (vars : gmap addr VariableNode) (a b : addr) :
  is_Some (swap_tensor a b vars) ↔ is_Some (vars !! a) ∧ is_Some (vars !! b).
Proof.
  split.
  - intros [vars' Hs]. unfold swap_tensor in Hs.
    destruct (vars !! a) as [va|]; [|done].
    destruct (vars !! b) as [vb|]; [|done]. eauto.
  - intros [[va Ha] [vb Hb]]. rewrite (swap_tensor_Some _ _ _ _ _ Ha Hb). eauto.
Qed.

(** C10.  Swapping two swappable Variables succeeds and exchanges their
    buffer references, and swapping them a second time gives back the store
    of Variables exactly as it was before the first swap. *)
Theorem swap_tensor_twice (vars : gmap addr VariableNode) (a b : addr) :
  swappable vars a b →
  ∃ vars', swap_tensor a b vars = Some vars' ∧
    var_value <$> vars' !! a = var_value <$> vars !! b ∧
    var_value <$> vars' !! b = var_value <$> vars !! a ∧
    swap_tensor a b vars' = Some vars.
Proof.
  intros (va & vb & Ha & Hb & _).
  rewrite (swap_tensor_Some _ _ _ _ _ Ha Hb).
  eexists; split; [reflexivity|].
  destruct (decide (a = b)) as [->|Hne].
  - assert (va = vb) as -> by congruence.
    rewrite !lookup_insert_eq, Hb. simpl. repeat split.
    erewrite swap_tensor_Some by apply lookup_insert_eq.
    rewrite decide_True by done. f_equal.
    rewrite !set_var_value_twice, !set_var_value_same.
    rewrite !insert_insert_eq. by apply insert_id.
  - rewrite lookup_insert_eq, lookup_insert_ne, lookup_insert_eq, Ha, Hb by done.
    simpl. repeat split.
    erewrite swap_tensor_Some;
      [|by rewrite lookup_insert_ne, lookup_insert_eq|by rewrite lookup_insert_eq].
    rewrite decide_False by done. simpl. f_equal.
    rewrite !set_var_value_twice, !set_var_value_same.
    apply map_eq. intros i.
    destruct (decide (i = b)) as [->|Hib]; [by rewrite lookup_insert_eq|].
    rewrite lookup_insert_ne by done.
    destruct (decide (i = a)) as [->|Hia]; [by rewrite lookup_insert_eq|].
    by rewrite !lookup_insert_ne by done.
Qed.

Lemma swap_tensor_twice_witness :
  ∃ vars', swap_tensor 0%nat 1%nat (graph (Stub.world 8 [45; 90; 12])) = Some vars' ∧
    var_value <$> vars' !! 0%nat
      = var_value <$> graph (Stub.world 8 [45; 90; 12]) !! 1%nat ∧
    var_value <$> vars' !! 1%nat
      = var_value <$> graph (Stub.world 8 [45; 90; 12]) !! 0%nat ∧
    swap_tensor 0%nat 1%nat vars' = Some (graph (Stub.world 8 [45; 90; 12])).
Proof.
  apply (swap_tensor_twice (graph (Stub.world 8 [45; 90; 12])) 0%nat 1%nat).
  exists (Stub.token_variable "inp_tokens" 0 8), (Stub.token_variable "out_tokens" 1 8).
  repeat split; reflexivity.
Defined.

(** ** The slot accessors *)

(** C8.  Each of the seven slot accessors succeeds for slot 0 and throws
    its invalid-index error for every other slot index. *)
Theorem slot_index_checked (FP16_MODE : bool) (index : Z) (p : devptr)
    (g : Gpt) :
  (index = 0 →
     is_Done (set_input_ptr index p g) ∧
     is_Done (set_output_ptr index p g) ∧
     is_Done (get_output_ptr index g) ∧
     is_Done (get_input_max_shape index g) ∧
     is_Done (get_output_max_shape index g) ∧
     is_Done (get_input_dtype index g) ∧
     is_Done (get_output_dtype FP16_MODE index g)) ∧
  (index ≠ 0 →
     set_input_ptr index p g = Raise "invalid input index" ∧
     set_output_ptr index p g = Raise "invalid output index" ∧
     get_output_ptr index g = Raise "invalid output index" ∧
     get_input_max_shape index g = Raise "invalid input index" ∧
     get_output_max_shape index g = Raise "invalid output index" ∧
     get_input_dtype index g = Raise "invalid input index" ∧
     get_output_dtype FP16_MODE index g = Raise "invalid output index").
Proof.
  unfold set_input_ptr, set_output_ptr, get_output_ptr, get_input_max_shape,
    get_output_max_shape, get_input_dtype, get_output_dtype, is_Done.
  split.
  - intros ->. simpl. repeat split; eexists; reflexivity.
  - intros Hne. apply Z.eqb_neq in Hne. rewrite Hne. repeat split.
Qed.

Lemma slot_index_checked_witness :
  (is_Done (set_input_ptr 0 {| base := 10; offset := 0 |}
              (Stub.model 1 8 1 [1; 3])) ∧
   is_Done (get_output_dtype false 0 (Stub.model 1 8 1 [1; 3]))) ∧
  (set_input_ptr 1 {| base := 10; offset := 0 |} (Stub.model 1 8 1 [1; 3])
     = Raise "invalid input index" ∧
   get_output_dtype false (-1) (Stub.model 1 8 1 [1; 3])
     = Raise "invalid output index").
Proof.
  split.
  - pose proof (proj1 (slot_index_checked false 0 {| base := 10; offset := 0 |}
                         (Stub.model 1 8 1 [1; 3])) eq_refl) as H.
    split; [apply H | apply H].
  - split.
    + apply (proj2 (slot_index_checked false 1 {| base := 10; offset := 0 |}
                      (Stub.model 1 8 1 [1; 3]))). lia.
    + apply (proj2 (slot_index_checked false (-1) {| base := 10; offset := 0 |}
                      (Stub.model 1 8 1 [1; 3]))). lia.
Defined.

(** ** Operators during the building phase *)

(** C9.  While the context is not built, [forward()] and [backward()] of a
    wired [StridedBatchGemmOp] return at once: no kernel is launched and the
    operator, the Variables and the device state are as before.  The
    [backward()] of the two operators given by their headers is empty. *)
Theorem building_phase_is_noop {float D : Type}
    (kernel : @StridedBatchGemmOp.GemmCall float → D → D) (cuda : bool)
    (ctx : LSContext) (op : @StridedBatchGemmOp.t float) (w : World D)
    (rms : RMSLayerNormalizeOp.t) (beam : BeamSearchTopOp.t) :
  is_built ctx = false →
  StridedBatchGemmOp.wired op w →
  StridedBatchGemmOp.forward kernel cuda ctx op w = Done (op, w, []) ∧
  StridedBatchGemmOp.backward kernel cuda ctx op w = Done (op, w, []) ∧
  RMSLayerNormalizeOp.backward ctx rms w = Done (rms, w, []) ∧
  BeamSearchTopOp.backward ctx beam w = Done (beam, w, []).
Proof.
  intros Hb ([pa Ha] & [pb Hpb] & [ch Hc]).
  unfold StridedBatchGemmOp.forward, StridedBatchGemmOp.backward.
  rewrite Ha, Hpb, Hc, Hb. simpl. repeat split.
Qed.

Lemma building_phase_is_noop_witness :
  StridedBatchGemmOp.forward Stub.gemm_kernel true {| _built := false |}
      Stub.gemm_op (Stub.world 8 [45; 90; 12])
    = Done (Stub.gemm_op, Stub.world 8 [45; 90; 12], []) ∧
  StridedBatchGemmOp.backward Stub.gemm_kernel true {| _built := false |}
      Stub.gemm_op (Stub.world 8 [45; 90; 12])
    = Done (Stub.gemm_op, Stub.world 8 [45; 90; 12], []).
Proof.
  pose proof (building_phase_is_noop Stub.gemm_kernel true {| _built := false |}
                Stub.gemm_op (Stub.world 8 [45; 90; 12])
                {| RMSLayerNormalizeOp._max_batch_tokens := 8;
                   RMSLayerNormalizeOp._hidden_dim := 4;
                   RMSLayerNormalizeOp._batch_tokens := 0;
                   RMSLayerNormalizeOp._use_mean := false |}
                (BeamSearchTopOp.before_forward 1 1 0 1
                   {| BeamSearchTopOp._max_batch_size := 1;
                      BeamSearchTopOp._max_step := 8;
                      BeamSearchTopOp._trg_vocab_size := 100;
                      BeamSearchTopOp._length_norm := 0;
                      BeamSearchTopOp._cur_step := 0;
                      BeamSearchTopOp._step_token_num := 0;
                      BeamSearchTopOp._beam_size := 1;
                      BeamSearchTopOp._host_can_num_batch := 0;
                      BeamSearchTopOp._batch_size := 0;
                      BeamSearchTopOp._end_id := 2 |})
                eq_refl) as H.
  assert (StridedBatchGemmOp.wired Stub.gemm_op (Stub.world 8 [45; 90; 12])) as Hw.
  { repeat split; eexists; reflexivity. }
  destruct (H Hw) as (Hf & Hb & _). split; [exact Hf | exact Hb].
Defined.

(** Once the context is built the same [forward()] launches its kernel, with
    the strides of the source. *)
Lemma forward_built_launches {float D : Type}
    (kernel : @StridedBatchGemmOp.GemmCall float → D → D)
    (ctx : LSContext) (op : @StridedBatchGemmOp.t float) (w : World D) :
  is_built ctx = true →
  StridedBatchGemmOp.wired op w →
  ∃ c, StridedBatchGemmOp.forward kernel true ctx op w
         = Done (op, StridedBatchGemmOp.launch kernel c w, [c]) ∧
       StridedBatchGemmOp.call_stride_B c
         = int_mul (StridedBatchGemmOp._n op) (StridedBatchGemmOp._k op) ∧
       StridedBatchGemmOp.call_stride_C c
         = int_mul (StridedBatchGemmOp._m op) (StridedBatchGemmOp._n op) ∧
       StridedBatchGemmOp.call_algo c = (StridedBatchGemmOp._gemm_algos op).1.1.
Proof.
  intros Hb ([pa Ha] & [pb Hpb] & [ch Hc]).
  unfold StridedBatchGemmOp.forward. rewrite Ha, Hpb, Hc, Hb. simpl.
  eexists. split; [reflexivity|]. simpl. repeat split.
Qed.

(** ** The call log of [Infer] *)

Lemma count_events_app (p : Event → bool) (l1 l2 : list Event) :
  count_events p (l1 ++ l2) = (count_events p l1 + count_events p l2)%nat.
Proof. induction l1 as [|e l1 IH]; simpl; [done|]. rewrite IH. lia. Qed.

Lemma count_events_none (p : Event → bool) (l : list Event) :
  Forall (λ e, p e = false) l → count_events p l = 0%nat.
Proof. induction 1 as [|e l He _ IH]; simpl; [done|]. by rewrite He, IH. Qed.

Lemma Forall_implies_false (p q : Event → bool) (l : list Event) :
  (∀ e, q e = true → p e = false) →
  Forall (λ e, q e = true) l → Forall (λ e, p e = false) l.
Proof. intros Hpq Hq. eapply Forall_impl; [exact Hq | exact Hpq]. Qed.

(** If the marked event occurs neither in [l1] nor in [l2], the list
    [l1 ++ e :: l2] can be split at a marked event in one way only. *)
Lemma split_at_unique (p : Event → bool) (l1 l2 pre post : list Event)
    (e e' : Event) :
  count_events p l1 = 0%nat → count_events p l2 = 0%nat →
  p e' = true →
  l1 ++ e :: l2 = pre ++ e' :: post →
  pre = l1 ∧ e' = e ∧ post = l2.
Proof.
  intros H1 H2 He'. revert pre. induction l1 as [|x l1 IH]; intros pre Heq.
  - destruct pre as [|y pre]; simpl in *.
    + by inversion Heq.
    + inversion Heq; subst. rewrite count_events_app in H2. simpl in H2.
      rewrite He' in H2. lia.
  - simpl in H1. destruct (p x) eqn:Hx; [lia|].
    destruct pre as [|y pre]; simpl in *.
    + inversion Heq; subst. congruence.
    + inversion Heq; subst. destruct (IH H1 pre) as (-> & -> & ->); done.
Qed.

Section Traces.

Context {D : Type} `{!Runtime D}.

Implicit Types (r : @Run D) (g : Gpt).

Lemma foldl_trace (step : @Run D → nat → @Run D) (ev : nat → Event) :
  (∀ r i, (step r i).2 = r.2 ++ [ev i]) →
  ∀ l r, (foldl step r l).2 = r.2 ++ map ev l.
Proof.
  intros Hstep l. induction l as [|i l IH]; intros r; simpl.
  - by rewrite app_nil_r.
  - rewrite IH, Hstep. by rewrite <- app_assoc.
Qed.

Lemma foldl_graph (step : @Run D → nat → @Run D) :
  (∀ r i, graph (step r i).1 = graph r.1) →
  ∀ l r, graph (foldl step r l).1 = graph r.1.
Proof.
  intros Hstep l. induction l as [|i l IH]; intros r; simpl; [done|].
  by rewrite IH, Hstep.
Qed.

Lemma before_forward_trace g B L steps r :
  (before_forward g B L steps r).2 = r.2 ++ before_forward_calls g B L steps.
Proof.
  unfold before_forward, before_forward_calls.
  destruct (steps =? 0); unfold call_before_forward, log; simpl;
    erewrite foldl_trace by (intros; reflexivity); simpl;
    by rewrite <- !app_assoc.
Qed.

Lemma before_forward_graph g B L steps r :
  graph (before_forward g B L steps r).1 = graph r.1.
Proof.
  unfold before_forward.
  destruct (steps =? 0); unfold call_before_forward, log; simpl;
    by erewrite foldl_graph by (intros; reflexivity).
Qed.

Lemma forward_layers_trace g r :
  (forward_layers g r).2 = r.2 ++ forward_calls g.
Proof.
  unfold forward_layers, forward_calls, call_forward, log. simpl.
  erewrite foldl_trace by (intros; reflexivity). simpl.
  by rewrite <- !app_assoc.
Qed.

Lemma forward_layers_graph g r : graph (forward_layers g r).1 = graph r.1.
Proof.
  unfold forward_layers, call_forward, log. simpl.
  by erewrite foldl_graph by (intros; reflexivity).
Qed.

Lemma pass_trace g B L steps r :
  (forward_layers g (before_forward g B L steps r)).2
    = r.2 ++ pass_calls g B L steps.
Proof.
  rewrite forward_layers_trace, before_forward_trace.
  unfold pass_calls. by rewrite <- app_assoc.
Qed.

Lemma call_swap_tensor_Some (a b : addr) r r' :
  call_swap_tensor a b r = Some r' →
  swap_tensor a b (graph r.1) = Some (graph r'.1) ∧
  dev r'.1 = dev r.1 ∧
  r'.2 = r.2 ++ [ESwapTensor a b].
Proof.
  unfold call_swap_tensor. destruct (swap_tensor a b (graph r.1)) as [vars|];
    simpl; [|done].
  intros [= <-]. done.
Qed.

(** One turn of the [while (true)]. *)
Lemma Infer_loop_S fuel g B L steps r :
  Infer_loop (S fuel) g B L steps r =
    let r1 := forward_layers g (before_forward g B L steps r) in
    if generator_is_stop (dev r1.1) then Done (steps, log (EIsStop true) r1)
    else
      match call_swap_tensor (_inp_tokens g) (_out_tokens g)
              (log (EIsStop false) r1) with
      | None => Undefined
      | Some r2 =>
        if steps =? 1 then Done (steps, r2)
        else Infer_loop fuel g B L (int_add steps 1) r2
      end.
Proof. simpl. by destruct (generator_is_stop _). Qed.

(** The ways in which the loop, entered with [steps = 0], comes to an end. *)
Lemma Infer_loop_inv fuel g B L r steps r' :
  Infer_loop fuel g B L 0 r = Done (steps, r') →
  (steps = 0 ∧ r'.2 = r.2 ++ pass_calls g B L 0 ++ [EIsStop true]) ∨
  (steps = 1 ∧ ∃ tail,
     r'.2 = r.2 ++ pass_calls g B L 0 ++
            [EIsStop false; ESwapTensor (_inp_tokens g) (_out_tokens g)] ++
            pass_calls g B L 1 ++ tail ∧
     (tail = [EIsStop true] ∨
      tail = [EIsStop false; ESwapTensor (_inp_tokens g) (_out_tokens g)])).
Proof.
  destruct fuel as [|fuel]; [done|]. rewrite Infer_loop_S. cbv zeta.
  destruct (generator_is_stop _).
  { intros [= <- <-]. left. split; [done|].
    unfold log; cbn [fst snd]. rewrite pass_trace. by rewrite <- app_assoc. }
  destruct (call_swap_tensor _ _ _) as [r2|] eqn:Hs1; [|done].
  apply call_swap_tensor_Some in Hs1 as (_ & _ & Ht2).
  unfold log in Ht2; cbn [fst snd] in Ht2. rewrite pass_trace in Ht2.
  change (0 =? 1) with false. cbv iota. rewrite int_add_0_1.
  destruct fuel as [|fuel]; [done|]. rewrite Infer_loop_S. cbv zeta.
  destruct (generator_is_stop _).
  { intros [= <- <-]. right. split; [done|]. exists [EIsStop true].
    split; [|by left]. unfold log; cbn [fst snd]. rewrite pass_trace, Ht2.
    by rewrite <- !app_assoc. }
  destruct (call_swap_tensor _ _ _) as [r3|] eqn:Hs2; [|done].
  apply call_swap_tensor_Some in Hs2 as (_ & _ & Ht3).
  unfold log in Ht3; cbn [fst snd] in Ht3. rewrite pass_trace, Ht2 in Ht3.
  change (1 =? 1) with true. cbv iota.
  intros [= <- <-]. right. split; [done|].
  exists [EIsStop false; ESwapTensor (_inp_tokens g) (_out_tokens g)].
  split; [|by right]. rewrite Ht3. by rewrite <- !app_assoc.
Qed.

(** Two turns are always enough, and one turn is enough from [steps = 1]. *)
Lemma Infer_loop_fuel fuel g B L r :
  Infer_loop (S (S fuel)) g B L 0 r ≠ OutOfFuel.
Proof.
  rewrite Infer_loop_S. cbv zeta.
  destruct (generator_is_stop _); [done|].
  destruct (call_swap_tensor _ _ _) as [r2|]; [|done].
  change (0 =? 1) with false. cbv iota. rewrite int_add_0_1.
  rewrite Infer_loop_S. cbv zeta.
  destruct (generator_is_stop _); [done|].
  destruct (call_swap_tensor _ _ _) as [r3|]; done.
Qed.

Lemma Infer_loop_exits_at_1 fuel g B L r :
  Infer_loop (S fuel) g B L 1 r ≠ OutOfFuel.
Proof.
  rewrite Infer_loop_S. cbv zeta.
  destruct (generator_is_stop _); [done|].
  destruct (call_swap_tensor _ _ _) as [r2|]; done.
Qed.

Lemma copy_prompt_rows_trace g L rows r r' :
  copy_prompt_rows g L rows r = Done r' →
  ∃ pre, r'.2 = r.2 ++ pre ∧ Forall (λ e, is_device_call e = true) pre.
Proof.
  revert r. induction rows as [|[i j] rows IH]; intros r; simpl.
  - intros [= <-]. exists []. by rewrite app_nil_r.
  - destruct (graph r.1 !! _inp_tokens g) as [inp|]; [|done].
    destruct (cudaMemcpy _ _ _ _) as [err d]. destruct err; [|done].
    intros Hrows. apply IH in Hrows as (pre & Hpre & Hall).
    unfold log in Hpre. simpl in Hpre. rewrite <- !app_assoc in Hpre.
    eexists. split; [exact Hpre|]. simpl. repeat constructor. exact Hall.
Qed.

Lemma Infer_prelude_trace (cuda : bool) g B L r r' :
  Infer_prelude cuda g B L r = Done r' →
  ∃ pre, r'.2 = r.2 ++ pre ∧ Forall (λ e, is_device_call e = true) pre.
Proof.
  unfold Infer_prelude. destruct cuda.
  - destruct (graph r.1 !! _inp_tokens g) as [inp|]; [|done].
    intros Hrows. apply copy_prompt_rows_trace in Hrows as (pre & Hpre & Hall).
    unfold log in Hpre. simpl in Hpre. rewrite <- app_assoc in Hpre.
    eexists. split; [exact Hpre|]. simpl. by constructor.
  - intros [= <-]. exists []. by rewrite app_nil_r.
Qed.

(** What a normal return of [Infer] consists of. *)
Lemma Infer_inv (cuda : bool) fuel g (w : World D) g' w' tr :
  Infer cuda fuel g w = Done (g', w', tr) →
  ∃ B L rest r0 steps r1,
    input_shapes_ g !! 0 = Some (B :: L :: rest) ∧
    Infer_prelude cuda g B L (w, []) = Done r0 ∧
    Infer_loop fuel g B L 0 r0 = Done (steps, r1) ∧
    g' = set_output_shape 0 [B; int_add L steps] g ∧
    w' = {| graph := graph r1.1; dev := context_synchronize (dev r1.1) |} ∧
    tr = r1.2 ++ [ESynchronize; ESetOutputShape 0 [B; int_add L steps]].
Proof.
  unfold Infer.
  destruct (input_shapes_ g !! 0) as [[|B [|L rest]]|]; try done.
  destruct (Infer_prelude cuda g B L (w, [])) as [r0| | |] eqn:Hpre; try done.
  destruct (Infer_loop fuel g B L 0 r0) as [[steps r1]| | |] eqn:Hloop; try done.
  intros [= <- <- <-]. exists B, L, rest, r0, steps, r1.
  repeat split; try done. unfold log. simpl. by rewrite <- app_assoc.
Qed.

Lemma Infer_fuel (cuda : bool) fuel g (w : World D) :
  Infer cuda (S (S fuel)) g w ≠ OutOfFuel.
Proof.
  unfold Infer.
  destruct (input_shapes_ g !! 0) as [[|B [|L rest]]|]; try done.
  destruct (Infer_prelude cuda g B L (w, [])) as [r0| | |] eqn:Hpre; try done.
  - pose proof (Infer_loop_fuel fuel g B L r0) as Hf.
    by destruct (Infer_loop (S (S fuel)) g B L 0 r0) as [[steps r1]| | |].
  - unfold Infer_prelude in Hpre. destruct cuda; [|done].
    destruct (graph _ !! _) as [inp|]; [|done].
    revert Hpre. generalize (prompt_rows g B).
    generalize (log (EMemset (value inp) 345
      (size_t_mul (size_t_of_int (int_mul (int_mul B (_beam_size (tw_ g)))
         (_max_step (tw_ g)))) sizeof_int))
      (on_dev (λ d, (cudaMemset (value inp) 345
         (size_t_mul (size_t_of_int (int_mul (int_mul B (_beam_size (tw_ g)))
            (_max_step (tw_ g)))) sizeof_int) d).2) (w, []))).
    intros r rows. revert r. induction rows as [|[i j] rows IH]; intros r; simpl; [done|].
    destruct (graph r.1 !! _inp_tokens g) as [inp'|]; [|done].
    destruct (cudaMemcpy _ _ _ _) as [err d]. destruct err; [|done]. apply IH.
Qed.

End Traces.

(** ** Counting the passes of a run *)

Lemma count_events_map (p : Event → bool) (f : nat → Event) (l : list nat) :
  (∀ i, p (f i) = false) → count_events p (map f l) = 0%nat.
Proof. intros Hf. induction l as [|i l IH]; simpl; [done|]. by rewrite Hf, IH. Qed.

Lemma before_forward_calls_count (p : Event → bool) (g : Gpt) (B L steps : Z) :
  (∀ l args, p (EBeforeForward l args) = false) →
  count_events p (before_forward_calls g B L steps) = 0%nat.
Proof.
  intros Hp. unfold before_forward_calls.
  destruct (steps =? 0); simpl;
    rewrite count_events_app, count_events_map by (intros; apply Hp);
    simpl; by rewrite !Hp.
Qed.

Lemma forward_calls_passes (g : Gpt) :
  count_events is_forward_pass (forward_calls g) = 1%nat.
Proof.
  unfold forward_calls. simpl.
  by rewrite count_events_app, count_events_map by done.
Qed.

Lemma forward_calls_count (p : Event → bool) (g : Gpt) :
  (∀ l, p (EForward l) = false) → count_events p (forward_calls g) = 0%nat.
Proof.
  intros Hp. unfold forward_calls. simpl.
  rewrite count_events_app, count_events_map by (intros; apply Hp).
  simpl. by rewrite !Hp.
Qed.

Lemma pass_calls_passes (g : Gpt) (B L steps : Z) :
  count_events is_forward_pass (pass_calls g B L steps) = 1%nat.
Proof.
  unfold pass_calls.
  by rewrite count_events_app, before_forward_calls_count, forward_calls_passes.
Qed.

Lemma pass_calls_count (p : Event → bool) (g : Gpt) (B L steps : Z) :
  (∀ l args, p (EBeforeForward l args) = false) →
  (∀ l, p (EForward l) = false) →
  count_events p (pass_calls g B L steps) = 0%nat.
Proof.
  intros Hb Hf. unfold pass_calls.
  by rewrite count_events_app, before_forward_calls_count, forward_calls_count.
Qed.

Lemma device_calls_count (p : Event → bool) (pre : list Event) :
  (∀ e, is_device_call e = true → p e = false) →
  Forall (λ e, is_device_call e = true) pre → count_events p pre = 0%nat.
Proof.
  intros Hp Hpre. apply count_events_none.
  eapply Forall_implies_false; [exact Hp | exact Hpre].
Qed.

Lemma device_call_not_pass (e : Event) :
  is_device_call e = true → is_forward_pass e = false.
Proof. by destruct e. Qed.

Lemma device_call_not_layer (e : Event) :
  is_device_call e = true → is_layer_call e = false.
Proof. by destruct e. Qed.

Lemma device_call_not_stop (e : Event) :
  is_device_call e = true → is_stop_signal e = false.
Proof. by destruct e. Qed.

Lemma device_call_not_epilogue (e : Event) :
  is_device_call e = true → is_epilogue_call e = false.
Proof. by destruct e. Qed.

(** The arithmetic of the set-up calls is exact when nothing overflows. *)
Lemma before_forward_calls_prefill (g : Gpt) (B L : Z) :
  is_int (B * _beam_size (tw_ g)) →
  before_forward_calls g B L 0 = prefill_setup_calls g B L.
Proof.
  intros HB. unfold before_forward_calls, prefill_setup_calls. simpl.
  by rewrite (int_mul_exact _ _ HB).
Qed.

Lemma before_forward_calls_decode (g : Gpt) (B L : Z) :
  is_int (B * _beam_size (tw_ g)) → INT_MIN <= L < INT_MAX →
  before_forward_calls g B L 1 = decode_setup_calls g B L 1.
Proof.
  intros HB HL. unfold before_forward_calls, decode_setup_calls. simpl.
  rewrite (int_mul_exact _ _ HB).
  rewrite (int_add_exact L 1) by (unfold is_int; lia).
  rewrite (int_sub_exact (L + 1) 1) by (unfold is_int, INT_MIN, INT_MAX in *; lia).
  done.
Qed.

Section Runs.

Context {D : Type} `{!Runtime D}.

(** The log of a normal return, in full. *)
Lemma Infer_trace (cuda : bool) (fuel : nat) (g : Gpt) (w : World D)
    (g' : Gpt) (w' : World D) (tr : list Event) :
  Infer cuda fuel g w = Done (g', w', tr) →
  ∃ B L rest pre steps middle,
    input_shapes_ g !! 0 = Some (B :: L :: rest) ∧
    Forall (λ e, is_device_call e = true) pre ∧
    g' = set_output_shape 0 [B; int_add L steps] g ∧
    tr = pre ++ pass_calls g B L 0 ++ middle ++
         [ESynchronize; ESetOutputShape 0 [B; int_add L steps]] ∧
    ((steps = 0 ∧ middle = [EIsStop true]) ∨
     (steps = 1 ∧ ∃ tail,
        middle = [EIsStop false; ESwapTensor (_inp_tokens g) (_out_tokens g)]
                 ++ pass_calls g B L 1 ++ tail ∧
        (tail = [EIsStop true] ∨
         tail = [EIsStop false;
                 ESwapTensor (_inp_tokens g) (_out_tokens g)]))).
Proof.
  intros HI.
  apply Infer_inv in HI as (B & L & rest & r0 & steps & r1 & Hs & Hp & Hl & -> & _ & ->).
  apply Infer_prelude_trace in Hp as (pre & Hpre & Hall). simpl in Hpre.
  apply Infer_loop_inv in Hl as [[-> Ht]|[-> (tail & Ht & Htail)]].
  - exists B, L, rest, pre, 0, [EIsStop true].
    split_and!; [exact Hs | exact Hall | reflexivity | | left; by split].
    rewrite Ht, Hpre. rewrite <- !app_assoc. reflexivity.
  - exists B, L, rest, pre, 1,
      ([EIsStop false; ESwapTensor (_inp_tokens g) (_out_tokens g)]
       ++ pass_calls g B L 1 ++ tail).
    split_and!; [exact Hs | exact Hall | reflexivity | |].
    + rewrite Ht, Hpre. rewrite <- !app_assoc. reflexivity.
    + right. split; [reflexivity|]. exists tail. split; [reflexivity | exact Htail].
Qed.

(** The final value of [steps] is the number of decode transitions. *)
Lemma Infer_steps (cuda : bool) (fuel : nat) (g : Gpt) (w : World D)
    (g' : Gpt) (w' : World D) (tr : list Event) :
  Infer cuda fuel g w = Done (g', w', tr) →
  ∃ B L rest body,
    input_shapes_ g !! 0 = Some (B :: L :: rest) ∧
    (decode_transitions tr ≤ 1)%nat ∧
    g' = set_output_shape 0
           [B; int_add L (Z.of_nat (decode_transitions tr))] g ∧
    tr = body ++ [ESynchronize;
                  ESetOutputShape 0
                    [B; int_add L (Z.of_nat (decode_transitions tr))]] ∧
    count_events is_epilogue_call body = 0%nat.
Proof.
  intros HI.
  apply Infer_trace in HI
    as (B & L & rest & pre & steps & middle & Hs & Hpre & -> & -> & Hcase).
  assert (count_events is_forward_pass pre = 0%nat) as Hp0
    by (apply device_calls_count; [apply device_call_not_pass | exact Hpre]).
  assert (count_events is_epilogue_call pre = 0%nat) as He0
    by (apply device_calls_count; [apply device_call_not_epilogue | exact Hpre]).
  exists B, L, rest, (pre ++ pass_calls g B L 0 ++ middle).
  destruct Hcase as [[-> ->]|[-> (tail & -> & Htail)]].
  - assert (decode_transitions
              (pre ++ pass_calls g B L 0 ++ [EIsStop true] ++
               [ESynchronize; ESetOutputShape 0 [B; int_add L 0]]) = 0%nat) as ->.
    { unfold decode_transitions, forward_passes.
      rewrite !count_events_app, Hp0, pass_calls_passes. reflexivity. }
    split_and!; [exact Hs | lia | reflexivity | |].
    + rewrite <- !app_assoc. reflexivity.
    + rewrite !count_events_app, He0, pass_calls_count by (intros; reflexivity).
      reflexivity.
  - assert (decode_transitions
              (pre ++ pass_calls g B L 0 ++
               ([EIsStop false; ESwapTensor (_inp_tokens g) (_out_tokens g)]
                ++ pass_calls g B L 1 ++ tail) ++
               [ESynchronize; ESetOutputShape 0 [B; int_add L 1]]) = 1%nat) as ->.
    { unfold decode_transitions, forward_passes.
      rewrite !count_events_app, Hp0, !pass_calls_passes.
      destruct Htail as [-> | ->]; reflexivity. }
    split_and!; [exact Hs | lia | reflexivity | |].
    + rewrite <- !app_assoc. reflexivity.
    + rewrite !count_events_app, He0, !pass_calls_count by (intros; reflexivity).
      destruct Htail as [-> | ->]; reflexivity.
Qed.

End Runs.

(** ** Runs that return *)

Lemma call_swap_tensor_is_Some {D : Type} `{!Runtime D} (a b : addr)
    (r : @Run D) :
  is_Some (graph r.1 !! a) → is_Some (graph r.1 !! b) →
  ∃ r', call_swap_tensor a b r = Some r' ∧
        is_Some (graph r'.1 !! a) ∧ is_Some (graph r'.1 !! b).
Proof.
  intros [va Ha] [vb Hb]. unfold call_swap_tensor.
  rewrite (swap_tensor_Some _ _ _ _ _ Ha Hb). simpl.
  eexists. split; [reflexivity|]. simpl. split.
  - rewrite lookup_insert. destruct (decide (b = a)); [eauto|].
    rewrite lookup_insert_eq. eauto.
  - rewrite lookup_insert_eq. eauto.
Qed.

(** With both token Variables in place the loop returns, after one or two
    turns. *)
Lemma Infer_loop_returns {D : Type} `{!Runtime D} (fuel : nat) (g : Gpt)
    (B L : Z) (r : @Run D) :
  is_Some (graph r.1 !! _inp_tokens g) →
  is_Some (graph r.1 !! _out_tokens g) →
  is_Done (Infer_loop (S (S fuel)) g B L 0 r).
Proof.
  intros Hi Ho. rewrite Infer_loop_S. cbv zeta.
  destruct (generator_is_stop _); [by eexists|].
  destruct (call_swap_tensor_is_Some (_inp_tokens g) (_out_tokens g)
              (log (EIsStop false)
                 (forward_layers g (before_forward g B L 0 r))))
    as (r2 & -> & Hi2 & Ho2).
  { unfold log; cbn [fst]. by rewrite forward_layers_graph, before_forward_graph. }
  { unfold log; cbn [fst]. by rewrite forward_layers_graph, before_forward_graph. }
  change (0 =? 1) with false. cbv iota. rewrite int_add_0_1.
  rewrite Infer_loop_S. cbv zeta.
  destruct (generator_is_stop _); [by eexists|].
  destruct (call_swap_tensor_is_Some (_inp_tokens g) (_out_tokens g)
              (log (EIsStop false)
                 (forward_layers g (before_forward g B L 1 r2))))
    as (r3 & -> & _ & _).
  { unfold log; cbn [fst]. by rewrite forward_layers_graph, before_forward_graph. }
  { unfold log; cbn [fst]. by rewrite forward_layers_graph, before_forward_graph. }
  change (1 =? 1) with true. cbv iota. by eexists.
Qed.

Lemma copy_prompt_rows_returns {D : Type} `{!Runtime D} (g : Gpt) (L : Z)
    (rows : list (Z * Z)) (r : @Run D) :
  (∀ dst src n d, (cudaMemcpy dst src n d).1 = cudaSuccess) →
  is_Some (graph r.1 !! _inp_tokens g) →
  ∃ r', copy_prompt_rows g L rows r = Done r' ∧ graph r'.1 = graph r.1.
Proof.
  intros Hcopy. revert r. induction rows as [|[i j] rows IH]; intros r Hi; simpl.
  - by eexists.
  - destruct Hi as [inp Hinp]. rewrite Hinp.
    destruct (cudaMemcpy _ _ _ _) as [err d] eqn:Hc.
    pose proof (Hcopy (ptr_add (value inp)
                  (int_mul (int_add (int_mul i (_beam_size (tw_ g))) j)
                           (_max_step (tw_ g))))
                  (_input_ptr g) (size_t_mul (size_t_of_int L) sizeof_int)
                  (dev r.1)) as Hok.
    rewrite Hc in Hok. simpl in Hok. subst err.
    edestruct IH as (r' & -> & Hg); [|by eexists].
    unfold log; cbn [fst]. eauto.
Qed.

(** A run returns normally when the input shape is bound, the two token
    Variables exist and the device copies of the prompt succeed. *)
Lemma Infer_returns {D : Type} `{!Runtime D} (cuda : bool) (fuel : nat)
    (g : Gpt) (w : World D) (B L : Z) (rest : list Z) :
  input_shapes_ g !! 0 = Some (B :: L :: rest) →
  is_Some (graph w !! _inp_tokens g) →
  is_Some (graph w !! _out_tokens g) →
  (∀ dst src n d, (cudaMemcpy dst src n d).1 = cudaSuccess) →
  is_Done (Infer cuda (S (S fuel)) g w).
Proof.
  intros Hs Hi Ho Hcopy. unfold Infer. rewrite Hs.
  assert (∃ r0, Infer_prelude cuda g B L (w, []) = Done r0 ∧
                graph r0.1 = graph w) as (r0 & -> & Hg).
  { unfold Infer_prelude. destruct cuda; [|by eexists].
    cbn [fst]. destruct Hi as [inp Hinp]. rewrite Hinp.
    edestruct (copy_prompt_rows_returns g L (prompt_rows g B)) as (r' & -> & Hg);
      [exact Hcopy| |eexists; split; [reflexivity|exact Hg]].
    unfold log, on_dev; cbn [fst graph]. eauto. }
  destruct (Infer_loop_returns fuel g B L r0) as [[steps r1] ->];
    [by rewrite Hg | by rewrite Hg |].
  by eexists.
Qed.

(** ** The decode loop *)

(** C3.  One call of [Infer] runs the layer stack at most twice: two turns
    of the loop always suffice, the turn entered with [steps = 1] is the
    last one whatever the generator reports, and the log of a run holds at
    most two forward passes; this is so for every runtime, prompt length and
    [max_step]. *)
Theorem Infer_at_most_two_passes {D : Type} `{!Runtime D} (cuda : bool)
    (g : Gpt) (w : World D) :
  (∀ fuel, Infer cuda (S (S fuel)) g w ≠ OutOfFuel) ∧
  (∀ B L (r : Run), Infer_loop 1 g B L 1 r ≠ OutOfFuel) ∧
  (∀ fuel g' w' tr,
     Infer cuda fuel g w = Done (g', w', tr) → (forward_passes tr ≤ 2)%nat).
Proof.
  split_and!.
  - intros fuel. apply Infer_fuel.
  - intros B L r. apply Infer_loop_exits_at_1.
  - intros fuel g' w' tr HI.
    apply Infer_steps in HI as (B & L & rest & body & _ & Hle & _).
    unfold decode_transitions in Hle. lia.
Qed.

Lemma Infer_at_most_two_passes_witness :
  ∃ g' w' tr,
    Stub.run None false 5 (Stub.model 1 8 1 [1; 3]) (Stub.world 8 [45; 90; 12])
      = Done (g', w', tr) ∧
    (forward_passes tr ≤ 2)%nat.
Proof.
  eexists _, _, _. split; [vm_compute; reflexivity|].
  eapply (proj2 (proj2 (@Infer_at_most_two_passes Stub.Dev
                          (Stub.runtime 0%nat 1%nat None false) true
                          (Stub.model 1 8 1 [1; 3])
                          (Stub.world 8 [45; 90; 12]))) 5%nat).
  vm_compute; reflexivity.
Defined.

(** C4, as the code has it.  For a batch size and a prompt length within the
    declared maxima, the prompt being strictly shorter than [max_step],
    [Infer] terminates (two turns of the loop are enough, and the run
    returns normally when the token Variables exist and the device copies
    succeed) and makes at most [max_step - L] decode transitions. *)
Theorem Infer_terminates_within_bound {D : Type} `{!Runtime D} (cuda : bool)
    (g : Gpt) (w : World D) (B L : Z) (rest : list Z) :
  input_shapes_ g !! 0 = Some (B :: L :: rest) →
  0 <= B <= _max_batch_size g →
  0 <= L < _max_step (tw_ g) →
  (∀ fuel, Infer cuda (S (S fuel)) g w ≠ OutOfFuel) ∧
  (is_Some (graph w !! _inp_tokens g) →
   is_Some (graph w !! _out_tokens g) →
   (∀ dst src n d, (cudaMemcpy dst src n d).1 = cudaSuccess) →
   ∀ fuel, is_Done (Infer cuda (S (S fuel)) g w)) ∧
  (∀ fuel g' w' tr,
     Infer cuda fuel g w = Done (g', w', tr) →
     Z.of_nat (decode_transitions tr) <= _max_step (tw_ g) - L).
Proof.
  intros Hs HB HL. split_and!.
  - intros fuel. apply Infer_fuel.
  - intros Hi Ho Hcopy fuel. by eapply Infer_returns.
  - intros fuel g' w' tr HI.
    apply Infer_steps in HI as (B' & L' & rest' & body & _ & Hle & _). lia.
Qed.

Lemma Infer_terminates_within_bound_witness :
  ∃ g' w' tr,
    Stub.run None false 2 (Stub.model 1 8 1 [1; 3]) (Stub.world 8 [45; 90; 12])
      = Done (g', w', tr) ∧
    Z.of_nat (decode_transitions tr) <= 8 - 3.
Proof.
  eexists _, _, _. split; [vm_compute; reflexivity|].
  eapply (proj2 (proj2 (@Infer_terminates_within_bound Stub.Dev
                   (Stub.runtime 0%nat 1%nat None false) true
                   (Stub.model 1 8 1 [1; 3]) (Stub.world 8 [45; 90; 12])
                   1 3 [] eq_refl ltac:(simpl; lia) ltac:(simpl; lia))) 2%nat).
  vm_compute; reflexivity.
Defined.

(** C4 as stated fails when the prompt fills the buffer: with
    [L = max_step = 8] and a generator that does not stop, [Infer] makes one
    decode transition, which is more than [max_step - L = 0]. *)
Lemma Infer_bound_fails_at_max_step :
  ∃ g' w' tr,
    Stub.run None false 2 (Stub.model 1 8 1 [1; 8])
      (Stub.world 8 [1; 2; 3; 4; 5; 6; 7; 8]) = Done (g', w', tr) ∧
    0 <= 1 <= _max_batch_size (Stub.model 1 8 1 [1; 8]) ∧
    0 <= 8 <= _max_step (tw_ (Stub.model 1 8 1 [1; 8])) ∧
    ¬ (Z.of_nat (decode_transitions tr)
         <= _max_step (tw_ (Stub.model 1 8 1 [1; 8])) - 8).
Proof.
  eexists _, _, _. split; [vm_compute; reflexivity|].
  split_and!; try (simpl; lia). vm_compute. intros Hle. apply Hle. reflexivity.
Qed.

(** C5.  Once the generator has reported stop, the log of the run holds
    nothing but the barrier and the publication of the output shape: no
    layer is set up or run again. *)
Theorem no_pass_after_stop {D : Type} `{!Runtime D} (cuda : bool) (fuel : nat)
    (g : Gpt) (w : World D) (g' : Gpt) (w' : World D)
    (tr before after : list Event) :
  Infer cuda fuel g w = Done (g', w', tr) →
  tr = before ++ EIsStop true :: after →
  count_events is_layer_call after = 0%nat ∧
  ∃ shape, after = [ESynchronize; ESetOutputShape 0 shape].
Proof.
  intros HI Hsplit.
  apply Infer_trace in HI
    as (B & L & rest & pre & steps & middle & _ & Hpre & _ & -> & Hcase).
  assert (count_events is_stop_signal pre = 0%nat) as Hp0
    by (apply device_calls_count; [apply device_call_not_stop | exact Hpre]).
  assert (after = [ESynchronize; ESetOutputShape 0 [B; int_add L steps]]) as ->.
  { destruct Hcase as [[-> ->]|[-> (tail & -> & [-> | ->])]].
    - rewrite app_assoc in Hsplit.
      apply (split_at_unique is_stop_signal) in Hsplit as (_ & _ & ->);
        [reflexivity | | reflexivity | reflexivity].
      rewrite count_events_app, Hp0, pass_calls_count by (intros; reflexivity).
      reflexivity.
    - rewrite <- !app_assoc in Hsplit.
      rewrite (app_assoc pre), (app_assoc (pre ++ _)),
        (app_assoc ((pre ++ _) ++ _)) in Hsplit.
      apply (split_at_unique is_stop_signal) in Hsplit as (_ & _ & ->);
        [reflexivity | | reflexivity | reflexivity].
      rewrite !count_events_app, Hp0, !pass_calls_count by (intros; reflexivity).
      reflexivity.
    - exfalso.
      assert (count_events is_stop_signal
                (before ++ EIsStop true :: after) = 0%nat) as Hz.
      { rewrite <- Hsplit.
        rewrite !count_events_app, Hp0, !pass_calls_count
          by (intros; reflexivity).
        reflexivity. }
      rewrite count_events_app in Hz. simpl in Hz. lia. }
  split; [reflexivity | by eexists].
Qed.

Lemma split_here (e : Event) (l : list Event) : e :: l = [] ++ e :: l.
Proof. reflexivity. Qed.

Lemma split_later (y e : Event) (l before after : list Event) :
  l = before ++ e :: after → y :: l = (y :: before) ++ e :: after.
Proof. intros ->. reflexivity. Qed.

Lemma no_pass_after_stop_witness :
  ∃ g' w' tr before after,
    Stub.run (Some 2%nat) true 2 (Stub.model 1 8 1 [1; 3])
      (Stub.world 8 [45; 90; 12]) = Done (g', w', tr) ∧
    tr = before ++ EIsStop true :: after ∧
    count_events is_layer_call after = 0%nat ∧
    ∃ shape, after = [ESynchronize; ESetOutputShape 0 shape].
Proof.
  eexists _, _, _, _, _. split; [vm_compute; reflexivity|].
  assert (∀ (P Q : Prop), P → (P → Q) → P ∧ Q) as Hand by tauto.
  apply Hand.
  - repeat first [apply split_here | apply split_later].
  - intros Hsplit.
    eapply (@no_pass_after_stop Stub.Dev
              (Stub.runtime 0%nat 1%nat (Some 2%nat) true)
              true 2%nat (Stub.model 1 8 1 [1; 3]) (Stub.world 8 [45; 90; 12])).
    + vm_compute; reflexivity.
    + exact Hsplit.
Defined.

(** The end of a run: the barrier, then the shape. *)
Lemma publish_after_barrier {D : Type} `{!Runtime D} (cuda : bool)
    (fuel : nat) (g : Gpt) (w : World D) (B L : Z) (rest : list Z)
    (g' : Gpt) (w' : World D) (tr : list Event) :
  input_shapes_ g !! 0 = Some (B :: L :: rest) →
  INT_MIN <= L < INT_MAX →
  Infer cuda fuel g w = Done (g', w', tr) →
  ∃ body,
    tr = body ++ [ESynchronize;
                  ESetOutputShape 0 [B; L + Z.of_nat (decode_transitions tr)]] ∧
    count_events is_epilogue_call body = 0%nat ∧
    (decode_transitions tr ≤ 1)%nat ∧
    get_output_shape 0 g' = Some [B; L + Z.of_nat (decode_transitions tr)].
Proof.
  intros Hs HL HI.
  apply Infer_steps in HI as (B' & L' & rest' & body & Hs' & Hle & -> & Htr & Hbody).
  rewrite Hs in Hs'. injection Hs' as <- <- <-.
  rewrite int_add_exact in Htr |- *
    by (unfold is_int, INT_MIN, INT_MAX in *; lia).
  exists body. split_and!; [exact Htr | exact Hbody | exact Hle |].
  unfold get_output_shape, set_output_shape. simpl. apply lookup_insert_eq.
Qed.

(** C7.  A run that leaves the loop ends with the context barrier followed
    by the publication, for slot 0, of the shape
    [(batch, prompt length + decode transitions made)]; neither call occurs
    earlier in the run, and the model object holds that shape afterwards. *)
Theorem synchronize_then_publish {D : Type} `{!Runtime D} (cuda : bool)
    (fuel : nat) (g : Gpt) (w : World D) (B L : Z) (rest : list Z)
    (g' : Gpt) (w' : World D) (tr : list Event) :
  input_shapes_ g !! 0 = Some (B :: L :: rest) →
  INT_MIN <= L < INT_MAX →
  Infer cuda fuel g w = Done (g', w', tr) →
  ∃ body,
    tr = body ++ [ESynchronize;
                  ESetOutputShape 0 [B; L + Z.of_nat (decode_transitions tr)]] ∧
    count_events is_epilogue_call body = 0%nat ∧
    get_output_shape 0 g' = Some [B; L + Z.of_nat (decode_transitions tr)].
Proof.
  intros Hs HL HI.
  destruct (publish_after_barrier cuda fuel g w B L rest g' w' tr Hs HL HI)
    as (body & Htr & Hbody & _ & Hshape).
  exists body. split_and!; [exact Htr | exact Hbody | exact Hshape].
Qed.

Lemma synchronize_then_publish_witness :
  ∃ g' w' tr,
    Stub.run (Some 2%nat) false 2 (Stub.model 1 8 1 [1; 3])
      (Stub.world 8 [45; 90; 12]) = Done (g', w', tr) ∧
    ∃ body,
      tr = body ++ [ESynchronize;
                    ESetOutputShape 0 [1; 3 + Z.of_nat (decode_transitions tr)]] ∧
      count_events is_epilogue_call body = 0%nat ∧
      get_output_shape 0 g' = Some [1; 3 + Z.of_nat (decode_transitions tr)].
Proof.
  eexists _, _, _. split; [vm_compute; reflexivity|].
  eapply (@synchronize_then_publish Stub.Dev
            (Stub.runtime 0%nat 1%nat (Some 2%nat) false) true 2%nat
            (Stub.model 1 8 1 [1; 3]) (Stub.world 8 [45; 90; 12]) 1 3 []).
  - reflexivity.
  - unfold INT_MIN, INT_MAX; lia.
  - vm_compute; reflexivity.
Defined.

(** C6, as the code has it.  After the prefill pass, every decode transition
    of a run consists of the negative stop check, the swap of the two token
    Variables, the set-up of every layer and then the run of every layer, in
    that order; in transition [s] the transformer blocks are set up with
    [(B * beam, 1, L + s)], the embedding layer with [(B * beam, 1, L + s - 1)],
    the normalisation and projection layers with [(B * beam, 1)] and the
    generator with [(B, 1, L + s - 1)].  The swap exchanges the buffer
    references of the two Variables and leaves the device state alone. *)
Theorem decode_transition_calls_made {D : Type} `{!Runtime D} (cuda : bool)
    (fuel : nat) (g : Gpt) (w : World D) (B L : Z) (rest : list Z)
    (g' : Gpt) (w' : World D) (tr : list Event) :
  input_shapes_ g !! 0 = Some (B :: L :: rest) →
  is_int (B * _beam_size (tw_ g)) →
  INT_MIN <= L < INT_MAX →
  Infer cuda fuel g w = Done (g', w', tr) →
  (∃ pre post,
     tr = pre ++ prefill_setup_calls g B L ++ forward_calls g ++
          flat_map (decode_transition_calls g B L)
                   (decode_steps (decode_transitions tr)) ++ post ∧
     count_events is_layer_call pre = 0%nat ∧
     count_events is_layer_call post = 0%nat) ∧
  (∀ r r' : @Run D,
     call_swap_tensor (_inp_tokens g) (_out_tokens g) r = Some r' →
     swap_tensor (_inp_tokens g) (_out_tokens g) (graph r.1)
       = Some (graph r'.1) ∧
     dev r'.1 = dev r.1).
Proof.
  intros Hs HB HL HI. split.
  - apply Infer_trace in HI
      as (B' & L' & rest' & pre & steps & middle & Hs' & Hpre & _ & -> & Hcase).
    rewrite Hs in Hs'. injection Hs' as <- <- <-.
    assert (count_events is_forward_pass pre = 0%nat) as Hp0
      by (apply device_calls_count; [apply device_call_not_pass | exact Hpre]).
    assert (count_events is_layer_call pre = 0%nat) as Hl0
      by (apply device_calls_count; [apply device_call_not_layer | exact Hpre]).
    exists pre.
    destruct Hcase as [[-> ->]|[-> (tail & -> & Htail)]].
    + assert (decode_transitions
                (pre ++ pass_calls g B L 0 ++ [EIsStop true] ++
                 [ESynchronize; ESetOutputShape 0 [B; int_add L 0]]) = 0%nat) as ->.
      { unfold decode_transitions, forward_passes.
        rewrite !count_events_app, Hp0, pass_calls_passes. reflexivity. }
      exists ([EIsStop true] ++
              [ESynchronize; ESetOutputShape 0 [B; int_add L 0]]).
      split_and!; [|exact Hl0|reflexivity].
      unfold pass_calls. rewrite before_forward_calls_prefill by exact HB.
      rewrite <- !app_assoc. reflexivity.
    + assert (decode_transitions
                (pre ++ pass_calls g B L 0 ++
                 ([EIsStop false; ESwapTensor (_inp_tokens g) (_out_tokens g)]
                  ++ pass_calls g B L 1 ++ tail) ++
                 [ESynchronize; ESetOutputShape 0 [B; int_add L 1]]) = 1%nat) as ->.
      { unfold decode_transitions, forward_passes.
        rewrite !count_events_app, Hp0, !pass_calls_passes.
        destruct Htail as [-> | ->]; reflexivity. }
      exists (tail ++ [ESynchronize; ESetOutputShape 0 [B; int_add L 1]]).
      split_and!; [|exact Hl0|destruct Htail as [-> | ->]; reflexivity].
      unfold pass_calls.
      rewrite before_forward_calls_prefill by exact HB.
      rewrite before_forward_calls_decode by (exact HB || exact HL).
      change (decode_steps 1) with [1]. cbn [flat_map].
      unfold decode_transition_calls. rewrite app_nil_r.
      rewrite <- !app_assoc. reflexivity.
  - intros r r' Hswap.
    apply call_swap_tensor_Some in Hswap as (Hg & Hd & _). by split.
Qed.

Lemma decode_transition_calls_made_witness :
  ∃ g' w' tr,
    Stub.run None false 2 (Stub.model 1 8 2 [1; 3])
      (Stub.world 16 [45; 90; 12]) = Done (g', w', tr) ∧
    ∃ pre post,
      tr = pre ++ prefill_setup_calls (Stub.model 1 8 2 [1; 3]) 1 3 ++
           forward_calls (Stub.model 1 8 2 [1; 3]) ++
           flat_map (decode_transition_calls (Stub.model 1 8 2 [1; 3]) 1 3)
                    (decode_steps (decode_transitions tr)) ++ post ∧
      count_events is_layer_call pre = 0%nat ∧
      count_events is_layer_call post = 0%nat.
Proof.
  eexists _, _, _. split; [vm_compute; reflexivity|].
  eapply (proj1 (@decode_transition_calls_made Stub.Dev
                   (Stub.runtime 0%nat 1%nat None false) true 2%nat
                   (Stub.model 1 8 2 [1; 3]) (Stub.world 16 [45; 90; 12])
                   1 3 [] _ _ _ eq_refl
                   ltac:(unfold is_int, INT_MIN, INT_MAX; simpl; lia)
                   ltac:(unfold INT_MIN, INT_MAX; lia)
                   ltac:(vm_compute; reflexivity))).
Defined.

(** C6 as stated fails: with batch 1, beam width 2 and a prompt of length 3
    the decode transition of step 1 sets the generator up with [(1, 1, 3)]
    and the embedding layer with [(2, 1, 3)]; neither is ever set up with
    [(batch * beam, 1, L + step) = (2, 1, 4)]. *)
Lemma uniform_decode_setup_fails :
  ∃ g' w' tr,
    Stub.run None false 2 (Stub.model 1 8 2 [1; 3])
      (Stub.world 16 [45; 90; 12]) = Done (g', w', tr) ∧
    decode_transitions tr = 1%nat ∧
    In (EBeforeForward GeneratorLayer [1; 1; 3]) tr ∧
    In (EBeforeForward LaunchGptEmbLayer [2; 1; 3]) tr ∧
    In (EBeforeForward LyrNormalizeLayer [2; 1]) tr ∧
    (∀ e, In e (uniform_decode_setup_calls (Stub.model 1 8 2 [1; 3]) 1 3 1) →
          e ≠ EBeforeForward (GptLayer 0) [2; 1; 4] →
          e ≠ EBeforeForward (GptLayer 1) [2; 1; 4] →
          ¬ In e tr).
Proof.
  eexists _, _, _. split; [vm_compute; reflexivity|].
  split_and!.
  - reflexivity.
  - cbv [In]. tauto.
  - cbv [In]. tauto.
  - cbv [In]. tauto.
  - intros e He H0 H1 Hin. cbv in He.
    destruct He as [<-|[<-|[<-|[<-|[<-|[<-|[]]]]]]]; try congruence;
      cbv [In] in Hin; intuition discriminate.
Qed.







(** ** The two-token scenario *)

(** C1, evaluated.  Batch 1, prompt [45, 90, 12], [max_step = 8], beam width
    1 and a generator that emits [99] twice.  Whether the generator raises
    its stop flag on the pass after the second token or together with it,
    [Infer] makes two forward passes and publishes [(1, 4)]; the caller's
    output buffer is never written.  In the first case the loop is left by
    the test [steps == 1] after a last swap, so that the five tokens sit in
    the buffer of the input-token Variable. *)
Theorem scenario_emit_two_then_stop :
  (∃ g' w' tr,
     Stub.run (Some 2%nat) false 8 (Stub.model 1 8 1 [1; 3])
       (Stub.world 8 [45; 90; 12]) = Done (g', w', tr) ∧
     get_output_shape 0 g' = Some [1; 4] ∧
     forward_passes tr = 2%nat ∧
     count_events is_stop_signal tr = 0%nat ∧
     Stub.tokens_of w' (_out_tokens g')
       = Some [45; 90; 12; 99; 1499027801; 1499027801; 1499027801; 1499027801] ∧
     Stub.tokens_of w' (_inp_tokens g')
       = Some [45; 90; 12; 99; 99; 1499027801; 1499027801; 1499027801] ∧
     Stub.mem (dev w') !! base (_gpt_out_ptr g') = Some (replicate 8 0)) ∧
  (∃ g' w' tr,
     Stub.run (Some 2%nat) true 8 (Stub.model 1 8 1 [1; 3])
       (Stub.world 8 [45; 90; 12]) = Done (g', w', tr) ∧
     get_output_shape 0 g' = Some [1; 4] ∧
     forward_passes tr = 2%nat ∧
     count_events is_stop_signal tr = 1%nat ∧
     Stub.tokens_of w' (_out_tokens g')
       = Some [45; 90; 12; 99; 99; 1499027801; 1499027801; 1499027801] ∧
     Stub.mem (dev w') !! base (_gpt_out_ptr g') = Some (replicate 8 0)).
Proof.
  split; eexists _, _, _; (split; [vm_compute; reflexivity|]);
    split_and!; reflexivity.
Qed.

(** * Further properties of the sources *)

(** ** The slot accessors, composed *)

(** X1.  A pointer bound with [set_output_ptr(0, p)] is what
    [get_output_ptr(0)] returns, also after the input pointer has been bound
    and after the output pointer has been bound once before; binding pointers
    changes neither the declared maximal shapes nor the recorded shapes. *)
Theorem bound_pointers_read_back (p0 p q : devptr) (g : Gpt) :
  ∃ g0 g1 g2,
    set_output_ptr 0 p0 g = Done g0 ∧
    set_output_ptr 0 p g0 = Done g1 ∧
    set_input_ptr 0 q g1 = Done g2 ∧
    get_output_ptr 0 g2 = Done p ∧
    _input_ptr g2 = q ∧
    get_input_max_shape 0 g2 = get_input_max_shape 0 g ∧
    get_output_max_shape 0 g2 = get_output_max_shape 0 g ∧
    input_shapes_ g2 = input_shapes_ g ∧
    output_shapes_ g2 = output_shapes_ g.
Proof. eexists _, _, _. split_and!; reflexivity. Qed.

(** ** What [Infer] leaves alone *)



(** ** The stop check and the swap *)

Lemma swap_tensor_involutive (vars vars' : gmap addr VariableNode) (a b : addr) :
  swap_tensor a b vars = Some vars' → swap_tensor a b vars' = Some vars.
Proof.
  intros Hs.
  destruct (proj1 (swap_tensor_is_Some vars a b) (mk_is_Some _ _ Hs))
    as [[va Ha] [vb Hb]].
  rewrite (swap_tensor_Some _ _ _ _ _ Ha Hb) in Hs. injection Hs as <-.
  destruct (decide (a = b)) as [->|Hne].
  - assert (va = vb) as -> by congruence.
    erewrite swap_tensor_Some by apply lookup_insert_eq.
    rewrite decide_True by done. f_equal.
    rewrite !set_var_value_twice, !set_var_value_same.
    rewrite !insert_insert_eq. by apply insert_id.
  - erewrite swap_tensor_Some;
      [|by rewrite lookup_insert_ne, lookup_insert_eq|by rewrite lookup_insert_eq].
    rewrite decide_False by done. simpl. f_equal.
    rewrite !set_var_value_twice, !set_var_value_same.
    apply map_eq. intros i.
    destruct (decide (i = b)) as [->|Hib]; [by rewrite lookup_insert_eq|].
    rewrite lookup_insert_ne by done.
    destruct (decide (i = a)) as [->|Hia]; [by rewrite lookup_insert_eq|].
    by rewrite !lookup_insert_ne by done.
Qed.

(** The loop, with the Variables: every pass is followed by a positive stop
    check or by a swap, and the store of Variables is swapped as often as
    the log says. *)
Lemma Infer_loop_swaps {D : Type} `{!Runtime D} (fuel : nat) (g : Gpt)
    (B L : Z) (r : @Run D) (steps : Z) (r' : @Run D) :
  Infer_loop fuel g B L 0 r = Done (steps, r') →
  ∃ evs, r'.2 = r.2 ++ evs ∧
    count_events is_device_call evs = 0%nat ∧
    count_events is_epilogue_call evs = 0%nat ∧
    count_events is_forward_pass evs
      = (count_events is_swap evs + count_events is_stop_signal evs)%nat ∧
    ((count_events is_swap evs = 0%nat ∧ graph r'.1 = graph r.1) ∨
     (count_events is_swap evs = 1%nat ∧
      swap_tensor (_inp_tokens g) (_out_tokens g) (graph r.1)
        = Some (graph r'.1)) ∨
     (count_events is_swap evs = 2%nat ∧ graph r'.1 = graph r.1)).
Proof.
  destruct fuel as [|fuel]; [done|]. rewrite Infer_loop_S. cbv zeta.
  destruct (generator_is_stop _).
  { intros [= <- <-]. exists (pass_calls g B L 0 ++ [EIsStop true]).
    split_and!.
    - unfold log; cbn [fst snd]. rewrite pass_trace. by rewrite <- app_assoc.
    - by rewrite count_events_app, pass_calls_count by (intros; reflexivity).
    - by rewrite count_events_app, pass_calls_count by (intros; reflexivity).
    - rewrite !count_events_app, pass_calls_passes,
        !pass_calls_count by (intros; reflexivity). reflexivity.
    - left. split.
      + by rewrite count_events_app, pass_calls_count by (intros; reflexivity).
      + unfold log; cbn [fst]. by rewrite forward_layers_graph, before_forward_graph. }
  destruct (call_swap_tensor _ _ _) as [r2|] eqn:Hs1; [|done].
  apply call_swap_tensor_Some in Hs1 as (Hg2 & _ & Ht2).
  unfold log in Ht2, Hg2; cbn [fst snd] in Ht2, Hg2.
  rewrite pass_trace in Ht2.
  rewrite forward_layers_graph, before_forward_graph in Hg2.
  change (0 =? 1) with false. cbv iota. rewrite int_add_0_1.
  destruct fuel as [|fuel]; [done|]. rewrite Infer_loop_S. cbv zeta.
  destruct (generator_is_stop _).
  { intros [= <- <-].
    exists (pass_calls g B L 0 ++
            [EIsStop false; ESwapTensor (_inp_tokens g) (_out_tokens g)] ++
            pass_calls g B L 1 ++ [EIsStop true]).
    split_and!.
    - unfold log; cbn [fst snd]. rewrite pass_trace, Ht2.
      by rewrite <- !app_assoc.
    - by rewrite !count_events_app, !pass_calls_count by (intros; reflexivity).
    - by rewrite !count_events_app, !pass_calls_count by (intros; reflexivity).
    - rewrite !count_events_app, !pass_calls_passes,
        !pass_calls_count by (intros; reflexivity). reflexivity.
    - right; left. split.
      + by rewrite !count_events_app, !pass_calls_count by (intros; reflexivity).
      + unfold log; cbn [fst].
        by rewrite forward_layers_graph, before_forward_graph. }
  destruct (call_swap_tensor _ _ _) as [r3|] eqn:Hs2; [|done].
  apply call_swap_tensor_Some in Hs2 as (Hg3 & _ & Ht3).
  unfold log in Ht3, Hg3; cbn [fst snd] in Ht3, Hg3.
  rewrite pass_trace, Ht2 in Ht3.
  rewrite forward_layers_graph, before_forward_graph in Hg3.
  change (1 =? 1) with true. cbv iota.
  intros [= <- <-].
  exists (pass_calls g B L 0 ++
          [EIsStop false; ESwapTensor (_inp_tokens g) (_out_tokens g)] ++
          pass_calls g B L 1 ++
          [EIsStop false; ESwapTensor (_inp_tokens g) (_out_tokens g)]).
  split_and!.
  - rewrite Ht3. by rewrite <- !app_assoc.
  - by rewrite !count_events_app, !pass_calls_count by (intros; reflexivity).
  - by rewrite !count_events_app, !pass_calls_count by (intros; reflexivity).
  - rewrite !count_events_app, !pass_calls_passes,
      !pass_calls_count by (intros; reflexivity). reflexivity.
  - right; right. split.
    + by rewrite !count_events_app, !pass_calls_count by (intros; reflexivity).
    + apply swap_tensor_involutive in Hg2. rewrite Hg2 in Hg3.
      by injection Hg3.
Qed.

Lemma device_call_not_swap (e : Event) :
  is_device_call e = true → is_swap e = false.
Proof. by destruct e. Qed.

Lemma each_followed_by_skip (p : Event → bool) (Q : Event → Prop)
    (l1 l2 : list Event) :
  count_events p l1 = 0%nat →
  each_followed_by p Q l2 → each_followed_by p Q (l1 ++ l2).
Proof.
  intros Hc H2. induction l1 as [|e l1 IH]; [exact H2|].
  cbn [count_events] in Hc. destruct (p e) eqn:He; [lia|].
  cbn [app each_followed_by]. split; [congruence | apply IH; lia].
Qed.

(** One pass ends with the generator's [forward()]; no call before it is a
    forward pass, a stop check or a swap. *)
Lemma pass_calls_split (g : Gpt) (B L steps : Z) :
  ∃ front, pass_calls g B L steps = front ++ [EForward GeneratorLayer] ∧
    ∀ p : Event → bool,
      (∀ e, is_layer_call e = true → is_forward_pass e = false → p e = false) →
      count_events p front = 0%nat.
Proof.
  exists (before_forward_calls g B L steps ++
          EForward LaunchGptEmbLayer ::
          map (λ idx, EForward (GptLayer idx)) (_gpt_layers_vec g) ++
          [EForward LyrNormalizeLayer; EForward LinearLayer]).
  split.
  - unfold pass_calls, forward_calls. rewrite <- app_assoc. f_equal.
    cbn [app]. f_equal. rewrite <- app_assoc. reflexivity.
  - intros p Hp.
    rewrite count_events_app, before_forward_calls_count
      by (intros; apply Hp; reflexivity).
    cbn [count_events]. rewrite count_events_app, count_events_map
      by (intros; apply Hp; reflexivity).
    cbn [count_events]. rewrite !Hp by reflexivity. reflexivity.
Qed.

(** The order of the calls in the log of a run, for the calls marked by [p]
    among the stop checks, the swaps and the generator's [forward()]. *)
Lemma Infer_log_order {D : Type} `{!Runtime D} (cuda : bool) (fuel : nat)
    (g : Gpt) (w : World D) (g' : Gpt) (w' : World D) (tr : list Event)
    (p : Event → bool) (Q : Event → Prop) :
  (∀ e, is_device_call e = true → p e = false) →
  (∀ e, is_layer_call e = true → is_forward_pass e = false → p e = false) →
  (∀ e, is_epilogue_call e = true → p e = false) →
  (p (EForward GeneratorLayer) = true → ∀ b, Q (EIsStop b)) →
  (p (EIsStop false) = true →
   Q (ESwapTensor (_inp_tokens g) (_out_tokens g))) →
  (p (EIsStop true) = true → Q ESynchronize) →
  p (ESwapTensor (_inp_tokens g) (_out_tokens g)) = false →
  Infer cuda fuel g w = Done (g', w', tr) →
  each_followed_by p Q tr.
Proof.
  intros Hdev Hlay Hepi Hpass Hneg Hpos Hswap HI.
  apply Infer_trace in HI
    as (B & L & rest & pre & steps & middle & _ & Hpre & _ & -> & Hcase).
  destruct (pass_calls_split g B L 0) as (f0 & -> & Hf0).
  destruct (pass_calls_split g B L 1) as (f1 & Hp1 & Hf1).
  specialize (Hf0 p Hlay). specialize (Hf1 p Hlay).
  pose proof (device_calls_count p pre Hdev Hpre) as Hpre0.
  assert (each_followed_by p Q
            [ESynchronize; ESetOutputShape 0 [B; int_add L steps]]) as Hend.
  { cbn [each_followed_by].
    rewrite (Hepi ESynchronize eq_refl), (Hepi (ESetOutputShape _ _) eq_refl).
    split_and!; [congruence | congruence | exact I]. }
  apply each_followed_by_skip; [exact Hpre0|].
  rewrite <- app_assoc. apply each_followed_by_skip; [exact Hf0|].
  destruct Hcase as [[-> ->] | [-> (tail & -> & Htail)]].
  - cbn [app each_followed_by]. split; [intros Hp; by apply Hpass|].
    split; [exact Hpos | exact Hend].
  - rewrite Hp1. rewrite <- !app_assoc. cbn [app each_followed_by].
    split; [intros Hp; by apply Hpass|].
    split; [exact Hneg|].
    split; [congruence|].
    apply each_followed_by_skip; [exact Hf1|].
    destruct Htail as [-> | ->]; cbn [app each_followed_by].
    + split; [intros Hp; by apply Hpass|].
      split; [exact Hpos | exact Hend].
    + split; [intros Hp; by apply Hpass|].
      split; [exact Hneg|].
      split; [congruence | exact Hend].
Qed.

(** X3.  The order of the stop checks and the swaps in the log of a run.
    The generator's [forward()], which ends a forward pass, is followed at
    once by the stop check [is_stop()]; a negative stop check is followed at
    once by [swap_tensor(_inp_tokens, _out_tokens)] and a positive one by
    the barrier [synchronize()].  So there are as many passes as stop checks,
    as many swaps as negative stop checks, at most two swaps and at most one
    positive stop check. *)
Theorem Infer_checks_stop_after_every_pass {D : Type} `{!Runtime D}
    (cuda : bool) (fuel : nat) (g : Gpt) (w : World D) (g' : Gpt)
    (w' : World D) (tr : list Event) :
  Infer cuda fuel g w = Done (g', w', tr) →
  each_followed_by is_forward_pass (λ e, is_stop_check e = true) tr ∧
  each_followed_by is_negative_stop
    (λ e, e = ESwapTensor (_inp_tokens g) (_out_tokens g)) tr ∧
  each_followed_by is_stop_signal (λ e, e = ESynchronize) tr ∧
  forward_passes tr = count_events is_stop_check tr ∧
  count_events is_swap tr = count_events is_negative_stop tr ∧
  count_events is_stop_check tr
    = (count_events is_negative_stop tr + count_events is_stop_signal tr)%nat ∧
  (count_events is_swap tr ≤ 2)%nat ∧
  (count_events is_stop_signal tr ≤ 1)%nat.
Proof.
  intros HI. split_and!.
  - eapply Infer_log_order; [..|exact HI]; try done.
    + by intros [].
    + by intros [].
  - eapply Infer_log_order; [..|exact HI]; try done.
    + by intros [].
    + by intros [] ?.
    + by intros [].
  - eapply Infer_log_order; [..|exact HI]; try done.
    + by intros [].
    + by intros [] ?.
    + by intros [].
  - apply Infer_trace in HI
      as (B & L & rest & pre & steps & middle & _ & Hpre & _ & -> & Hcase).
    unfold forward_passes.
    rewrite !count_events_app, !pass_calls_passes,
      !pass_calls_count by (intros; reflexivity).
    rewrite (device_calls_count _ _ device_call_not_pass Hpre),
      (device_calls_count is_stop_check pre) by (by intros [] || exact Hpre).
    destruct Hcase as [[-> ->] | [-> (tail & -> & [-> | ->])]];
      rewrite ?count_events_app, ?pass_calls_passes,
        ?pass_calls_count by (intros; reflexivity); reflexivity.
  - apply Infer_trace in HI
      as (B & L & rest & pre & steps & middle & _ & Hpre & _ & -> & Hcase).
    rewrite !count_events_app, !pass_calls_count by (intros; reflexivity).
    rewrite (device_calls_count _ _ device_call_not_swap Hpre),
      (device_calls_count is_negative_stop pre) by (by intros [] || exact Hpre).
    destruct Hcase as [[-> ->] | [-> (tail & -> & [-> | ->])]];
      rewrite ?count_events_app, ?pass_calls_count by (intros; reflexivity);
      reflexivity.
  - apply Infer_trace in HI
      as (B & L & rest & pre & steps & middle & _ & Hpre & _ & -> & Hcase).
    rewrite !count_events_app, !pass_calls_count by (intros; reflexivity).
    rewrite (device_calls_count _ _ device_call_not_stop Hpre),
      (device_calls_count is_stop_check pre),
      (device_calls_count is_negative_stop pre)
      by (by intros [] || exact Hpre).
    destruct Hcase as [[-> ->] | [-> (tail & -> & [-> | ->])]];
      rewrite ?count_events_app, ?pass_calls_count by (intros; reflexivity);
      reflexivity.
  - apply Infer_trace in HI
      as (B & L & rest & pre & steps & middle & _ & Hpre & _ & -> & Hcase).
    rewrite !count_events_app, !pass_calls_count by (intros; reflexivity).
    rewrite (device_calls_count _ _ device_call_not_swap Hpre).
    destruct Hcase as [[-> ->] | [-> (tail & -> & [-> | ->])]];
      rewrite ?count_events_app, ?pass_calls_count by (intros; reflexivity);
      cbn [count_events is_swap]; lia.
  - apply Infer_trace in HI
      as (B & L & rest & pre & steps & middle & _ & Hpre & _ & -> & Hcase).
    rewrite !count_events_app, !pass_calls_count by (intros; reflexivity).
    rewrite (device_calls_count _ _ device_call_not_stop Hpre).
    destruct Hcase as [[-> ->] | [-> (tail & -> & [-> | ->])]];
      rewrite ?count_events_app, ?pass_calls_count by (intros; reflexivity);
      cbn [count_events is_stop_signal]; lia.
Qed.

Lemma Infer_checks_stop_after_every_pass_witness :
  ∃ g' w' tr,
    Stub.run (Some 2%nat) true 2 (Stub.model 1 8 1 [1; 3])
      (Stub.world 8 [45; 90; 12]) = Done (g', w', tr) ∧
    each_followed_by is_forward_pass (λ e, is_stop_check e = true) tr ∧
    each_followed_by is_negative_stop
      (λ e, e = ESwapTensor (_inp_tokens (Stub.model 1 8 1 [1; 3]))
                            (_out_tokens (Stub.model 1 8 1 [1; 3]))) tr ∧
    each_followed_by is_stop_signal (λ e, e = ESynchronize) tr.
Proof.
  eexists _, _, _. split; [vm_compute; reflexivity|].
  pose proof (@Infer_checks_stop_after_every_pass Stub.Dev
                (Stub.runtime 0%nat 1%nat (Some 2%nat) true) true 2%nat
                (Stub.model 1 8 1 [1; 3]) (Stub.world 8 [45; 90; 12]) _ _ _
                ltac:(vm_compute; reflexivity)) as H.
  split; [apply H | split; apply H].
Defined.

(** ** The copies of the prompt *)

Lemma elem_of_prompt_rows (g : Gpt) (B i j : Z) :
  (i, j) ∈ prompt_rows g B ↔ 0 <= i < B ∧ 0 <= j < _beam_size (tw_ g).
Proof.
  unfold prompt_rows. rewrite list_elem_of_bind. split.
  - intros (i' & Hin & Hi'). apply list_elem_of_bind in Hin as (j' & Hin & Hj').
    apply list_elem_of_singleton in Hin. injection Hin as -> ->.
    apply elem_of_seqZ in Hi', Hj'. lia.
  - intros [Hi Hj]. exists i. split; [|apply elem_of_seqZ; lia].
    apply list_elem_of_bind. exists j. split; [|apply elem_of_seqZ; lia].
    by apply list_elem_of_singleton.
Qed.

Lemma length_bind_const {A B : Type} (f : A → list B) (l : list A) (n : nat) :
  (∀ x, length (f x) = n) → length (l ≫= f) = (length l * n)%nat.
Proof.
  intros Hf. induction l as [|x l IH]; [done|].
  rewrite bind_cons, length_app, IH, Hf. simpl. lia.
Qed.

Lemma length_prompt_rows (g : Gpt) (B : Z) :
  length (prompt_rows g B) = (Z.to_nat B * Z.to_nat (_beam_size (tw_ g)))%nat.
Proof.
  unfold prompt_rows.
  rewrite (length_bind_const _ _ (Z.to_nat (_beam_size (tw_ g)))).
  - by rewrite length_seqZ.
  - intros i. rewrite (length_bind_const _ _ 1%nat) by done.
    rewrite length_seqZ. lia.
Qed.

(** The calls of the copy loop, in full. *)
Lemma copy_prompt_rows_calls {D : Type} `{!Runtime D} (g : Gpt) (L : Z)
    (rows : list (Z * Z)) (r r' : @Run D) (v : VariableNode) :
  graph r.1 !! _inp_tokens g = Some v →
  copy_prompt_rows g L rows r = Done r' →
  r'.2 = r.2 ++ (rows ≫= row_calls g L v).
Proof.
  revert r. induction rows as [|[i j] rows IH]; intros r Hv.
  - cbn [copy_prompt_rows]. intros [= <-]. symmetry. apply app_nil_r.
  - rewrite bind_cons. cbn [copy_prompt_rows]. rewrite Hv.
    destruct (cudaMemcpy _ _ _ _) as [err d]. destruct err; [|done].
    intros Hrows. apply IH in Hrows; [|exact Hv].
    rewrite Hrows. unfold log; cbn [fst snd]. rewrite <- !app_assoc.
    reflexivity.
Qed.

(** The log of a run made with [LIGHTSEQ_cuda] begins with the device calls
    of the source, and holds no other device call. *)
Lemma Infer_prelude_calls {D : Type} `{!Runtime D} (fuel : nat) (g : Gpt)
    (w : World D) (B L : Z) (rest : list Z) (v : VariableNode)
    (g' : Gpt) (w' : World D) (tr : list Event) :
  input_shapes_ g !! 0 = Some (B :: L :: rest) →
  graph w !! _inp_tokens g = Some v →
  Infer true fuel g w = Done (g', w', tr) →
  ∃ body, tr = prelude_calls g B L v ++ body ∧
          count_events is_device_call body = 0%nat.
Proof.
  intros Hs Hv HI.
  apply Infer_inv in HI as (B' & L' & rest' & r0 & steps & r1 & Hs' & Hp & Hl & _ & _ & ->).
  rewrite Hs in Hs'. injection Hs' as <- <- <-.
  unfold Infer_prelude in Hp. cbn [fst] in Hp. rewrite Hv in Hp.
  apply (copy_prompt_rows_calls _ _ _ _ _ v) in Hp; [|exact Hv].
  unfold log in Hp; cbn [fst snd] in Hp. rewrite app_nil_l in Hp.
  apply Infer_loop_swaps in Hl as (evs & Hevs & Hdev & _ & _ & _).
  exists (evs ++ [ESynchronize; ESetOutputShape 0 [B; int_add L steps]]).
  split.
  - rewrite Hevs, Hp. unfold prelude_calls. rewrite <- !app_assoc. reflexivity.
  - by rewrite count_events_app, Hdev.
Qed.

Lemma filter_memcpy_rows (g : Gpt) (L : Z) (v : VariableNode)
    (rows : list (Z * Z)) :
  List.filter is_memcpy (rows ≫= row_calls g L v)
    = map (prompt_copy g L v) rows.
Proof.
  induction rows as [|ij rows IH]; [reflexivity|].
  rewrite bind_cons, List.filter_app, IH. reflexivity.
Qed.

Lemma filter_memset_rows (g : Gpt) (L : Z) (v : VariableNode)
    (rows : list (Z * Z)) :
  List.filter is_memset (rows ≫= row_calls g L v) = [].
Proof.
  induction rows as [|ij rows IH]; [reflexivity|].
  rewrite bind_cons, List.filter_app, IH. reflexivity.
Qed.

Lemma filter_no_device_call (p : Event → bool) (body : list Event) :
  (∀ e, is_device_call e = false → p e = false) →
  count_events is_device_call body = 0%nat → List.filter p body = [].
Proof.
  intros Hp. induction body as [|e body IH]; [reflexivity|].
  cbn [count_events List.filter]. destruct (is_device_call e) eqn:He; [lia|].
  intros Hbody. rewrite (Hp e He). apply IH. lia.
Qed.

Lemma NoDup_prompt_rows (g : Gpt) (B : Z) : NoDup (prompt_rows g B).
Proof.
  unfold prompt_rows. apply NoDup_bind.
  - intros i1 i2 [i j] _ _ H1 H2.
    apply list_elem_of_bind in H1 as (j1 & H1 & _).
    apply list_elem_of_bind in H2 as (j2 & H2 & _).
    apply list_elem_of_singleton in H1, H2. congruence.
  - intros i _. apply NoDup_bind.
    + intros j1 j2 [i' j] _ _ H1 H2.
      apply list_elem_of_singleton in H1, H2. congruence.
    + intros j _. apply NoDup_singleton.
    + apply NoDup_seqZ.
  - apply NoDup_seqZ.
Qed.

(** X4.  Under [LIGHTSEQ_cuda] the log of a run begins with the device calls
    of the source and holds no other device call.  The one [cudaMemset] is
    the first call and fills the buffer of the input-token Variable with the
    byte [345].  The [cudaMemcpy] calls of the log are, in loop order, one
    for each pair of a batch entry [i < batch] and a beam [j < beam], none
    twice: the copy for [(i, j)] writes at the row offset
    [(i * beam + j) * max_step] of that buffer and reads [seq_len] elements
    at the caller's input pointer itself, so that every row receives the same
    first [seq_len] elements of the input. *)
Theorem Infer_copies_prompt_to_every_row {D : Type} `{!Runtime D}
    (fuel : nat) (g : Gpt) (w : World D) (B L : Z) (rest : list Z)
    (v : VariableNode) (g' : Gpt) (w' : World D) (tr : list Event) :
  input_shapes_ g !! 0 = Some (B :: L :: rest) →
  graph w !! _inp_tokens g = Some v →
  Infer true fuel g w = Done (g', w', tr) →
  (∃ body, tr = prelude_calls g B L v ++ body ∧
           count_events is_device_call body = 0%nat) ∧
  List.filter is_memset tr
    = [EMemset (value v) 345
         (size_t_mul
            (size_t_of_int
               (int_mul (int_mul B (_beam_size (tw_ g))) (_max_step (tw_ g))))
            sizeof_int)] ∧
  List.filter is_memcpy tr = map (prompt_copy g L v) (prompt_rows g B) ∧
  NoDup (prompt_rows g B) ∧
  (∀ i j, (i, j) ∈ prompt_rows g B ↔
          0 <= i < B ∧ 0 <= j < _beam_size (tw_ g)) ∧
  length (prompt_rows g B)
    = (Z.to_nat B * Z.to_nat (_beam_size (tw_ g)))%nat.
Proof.
  intros Hs Hv HI.
  destruct (Infer_prelude_calls fuel g w B L rest v g' w' tr Hs Hv HI)
    as (body & -> & Hbody).
  split_and!.
  - exists body. by split.
  - unfold prelude_calls. cbn [app List.filter is_memset].
    rewrite List.filter_app, filter_memset_rows,
      (filter_no_device_call is_memset body) by (by intros [] || exact Hbody).
    reflexivity.
  - unfold prelude_calls. cbn [app List.filter is_memcpy].
    rewrite List.filter_app, filter_memcpy_rows,
      (filter_no_device_call is_memcpy body) by (by intros [] || exact Hbody).
    apply app_nil_r.
  - apply NoDup_prompt_rows.
  - intros i j. apply elem_of_prompt_rows.
  - apply length_prompt_rows.
Qed.

Lemma Infer_copies_prompt_to_every_row_witness :
  ∃ g' w' tr,
    Stub.run None false 2 (Stub.model 2 8 2 [2; 3])
      (Stub.world 32 [45; 90; 12; 7; 8; 9]) = Done (g', w', tr) ∧
    List.filter is_memcpy tr
      = map (prompt_copy (Stub.model 2 8 2 [2; 3]) 3
               (Stub.token_variable "inp_tokens" 0 32))
            (prompt_rows (Stub.model 2 8 2 [2; 3]) 2).
Proof.
  eexists _, _, _. split; [vm_compute; reflexivity|].
  pose proof (@Infer_copies_prompt_to_every_row Stub.Dev
                (Stub.runtime 0%nat 1%nat None false) 2%nat
                (Stub.model 2 8 2 [2; 3]) (Stub.world 32 [45; 90; 12; 7; 8; 9])
                2 3 [] (Stub.token_variable "inp_tokens" 0 32) _ _ _
                eq_refl eq_refl ltac:(vm_compute; reflexivity)) as H.
  apply H.
Defined.

(** ** The rows of the token buffer *)

Lemma row_offset_exact (g : Gpt) (B i j : Z) :
  sizes_fit g → 0 <= B <= _max_batch_size g →
  0 <= i < B → 0 <= j < _beam_size (tw_ g) →
  row_offset g i j = (i * _beam_size (tw_ g) + j) * _max_step (tw_ g) ∧
  0 <= i * _beam_size (tw_ g) + j < B * _beam_size (tw_ g) ∧
  B * _beam_size (tw_ g) <= _max_batch_size g * _beam_size (tw_ g) ∧
  token_buffer_elements g
    = _max_batch_size g * _beam_size (tw_ g) * _max_step (tw_ g).
Proof.
  unfold sizes_fit, row_offset, token_buffer_elements.
  set (mb := _max_batch_size g). set (bm := _beam_size (tw_ g)).
  set (ms := _max_step (tw_ g)).
  intros (Hmb & Hbm & Hms & Hp1 & Hp2) HB Hi Hj.
  assert (0 <= i * bm <= (B - 1) * bm) as Hib by nia.
  assert (B * bm <= mb * bm) as HBb by nia.
  assert (0 <= i * bm + j < B * bm) as Hrow by nia.
  assert (0 <= (i * bm + j) * ms <= mb * bm * ms) as Hoff by nia.
  assert (0 <= mb * bm) as Hmbbm by nia.
  assert (0 <= mb * bm * ms) as Hcap by nia.
  unfold INT_MAX in *.
  rewrite (int_mul_exact i bm) by (unfold is_int, INT_MIN, INT_MAX; lia).
  rewrite (int_add_exact (i * bm) j) by (unfold is_int, INT_MIN, INT_MAX; lia).
  rewrite (int_mul_exact (i * bm + j) ms) by (unfold is_int, INT_MIN, INT_MAX; lia).
  rewrite (int_mul_exact mb bm) by (unfold is_int, INT_MIN, INT_MAX; lia).
  rewrite (int_mul_exact (mb * bm) ms) by (unfold is_int, INT_MIN, INT_MAX; lia).
  split_and!; lia.
Qed.


(** X5.  For a model whose sizes fit and an input within the declared
    maxima, the rows that [Infer] copies the prompt to are inside the token
    buffer as the constructor allocates it, and two different rows do not
    overlap. *)
Theorem prompt_rows_within_buffer (g : Gpt) (B L i j i' j' : Z) :
  sizes_fit g →
  0 <= B <= _max_batch_size g → 0 <= L <= _max_step (tw_ g) →
  0 <= i < B → 0 <= j < _beam_size (tw_ g) →
  0 <= i' < B → 0 <= j' < _beam_size (tw_ g) →
  (0 <= row_offset g i j ∧ row_offset g i j + L <= token_buffer_elements g) ∧
  ((i, j) ≠ (i', j') →
   row_offset g i j + L <= row_offset g i' j' ∨
   row_offset g i' j' + L <= row_offset g i j).
Proof.
  intros Hfit HB HL Hi Hj Hi' Hj'.
  destruct (row_offset_exact g B i j Hfit HB Hi Hj) as (-> & Hrow & HBb & ->).
  destruct (row_offset_exact g B i' j' Hfit HB Hi' Hj') as (-> & Hrow' & _ & _).
  destruct Hfit as (Hmb & Hbm & Hms & _ & _).
  set (bm := _beam_size (tw_ g)) in *. set (ms := _max_step (tw_ g)) in *.
  set (mb := _max_batch_size g) in *.
  split.
  - split; [nia|].
    assert ((i * bm + j + 1) * ms <= B * bm * ms) by nia.
    assert (B * bm * ms <= mb * bm * ms) by nia. lia.
  - intros Hne.
    assert (i * bm + j ≠ i' * bm + j') as Hd.
    { intros Heq. apply Hne.
      assert (i = i') by nia. subst i'. f_equal. lia. }
    destruct (Z.lt_ge_cases (i * bm + j) (i' * bm + j')) as [Hlt|Hge].
    + left. assert ((i * bm + j + 1) * ms <= (i' * bm + j') * ms) by nia. lia.
    + right. assert ((i' * bm + j' + 1) * ms <= (i * bm + j) * ms) by nia. lia.
Qed.

Lemma prompt_rows_within_buffer_witness :
  (0 <= row_offset (Stub.model 2 8 2 [2; 3]) 1 0 ∧
   row_offset (Stub.model 2 8 2 [2; 3]) 1 0 + 8
     <= token_buffer_elements (Stub.model 2 8 2 [2; 3])) ∧
  (row_offset (Stub.model 2 8 2 [2; 3]) 1 0 + 8
     <= row_offset (Stub.model 2 8 2 [2; 3]) 1 1 ∨
   row_offset (Stub.model 2 8 2 [2; 3]) 1 1 + 8
     <= row_offset (Stub.model 2 8 2 [2; 3]) 1 0).
Proof.
  assert (sizes_fit (Stub.model 2 8 2 [2; 3])) as Hfit
    by (unfold sizes_fit, INT_MAX; simpl; lia).
  destruct (prompt_rows_within_buffer (Stub.model 2 8 2 [2; 3]) 2 8 1 0 1 1 Hfit
              ltac:(simpl; lia) ltac:(simpl; lia) ltac:(lia) ltac:(simpl; lia)
              ltac:(lia) ltac:(simpl; lia)) as [H1 H2].
  split; [exact H1 | apply H2; congruence].
Defined.




(** ** The order of the layers *)

Lemma omap_layer_of_map (f : nat → Event) (l : list nat) :
  (∀ i, layer_of (f i) = Some (GptLayer i)) →
  omap layer_of (map f l) = map GptLayer l.
Proof.
  intros Hf. induction l as [|i l IH]; [done|].
  cbn [map omap list_omap]. by rewrite Hf, IH.
Qed.

Lemma before_forward_calls_order (g : Gpt) (B L steps : Z) :
  omap layer_of (before_forward_calls g B L steps) = network_order g.
Proof.
  unfold before_forward_calls, network_order.
  destruct (steps =? 0); cbn [omap list_omap layer_of];
    rewrite omap_app, omap_layer_of_map by done; reflexivity.
Qed.

Lemma forward_calls_order (g : Gpt) :
  omap layer_of (forward_calls g) = network_order g.
Proof.
  unfold forward_calls, network_order. cbn [omap list_omap layer_of].
  rewrite omap_app, omap_layer_of_map by done. reflexivity.
Qed.

Lemma pass_calls_order (g : Gpt) (B L steps : Z) :
  omap layer_of (pass_calls g B L steps) = network_order g ++ network_order g.
Proof.
  unfold pass_calls.
  by rewrite omap_app, before_forward_calls_order, forward_calls_order.
Qed.

Lemma device_calls_order (pre : list Event) :
  Forall (λ e, is_device_call e = true) pre → omap layer_of pre = [].
Proof.
  induction 1 as [|e pre He _ IH]; [done|].
  cbn [omap list_omap]. rewrite IH. by destruct e.
Qed.

(** X9.  [Gpt::before_forward] sets the layers up in the order in which the
    loop then runs them: embedding, the transformer layers in the order of
    [_gpt_layers_vec], normalisation, projection, generator, each once,
    whatever the step.  The layer calls in the log of a run are therefore
    this order repeated twice for every forward pass. *)
Theorem layers_visited_in_network_order {D : Type} `{!Runtime D} (g : Gpt) :
  (∀ B L steps (r : @Run D),
     omap layer_of (before_forward g B L steps r).2
       = omap layer_of r.2 ++ network_order g ∧
     omap layer_of (forward_layers g r).2
       = omap layer_of r.2 ++ network_order g) ∧
  (∀ cuda fuel (w : World D) g' w' tr,
     Infer cuda fuel g w = Done (g', w', tr) →
     omap layer_of tr
       = mjoin (replicate (2 * forward_passes tr) (network_order g))).
Proof.
  split.
  - intros B L steps r. split.
    + by rewrite before_forward_trace, omap_app, before_forward_calls_order.
    + by rewrite forward_layers_trace, omap_app, forward_calls_order.
  - intros cuda fuel w g' w' tr HI.
    apply Infer_trace in HI
      as (B & L & rest & pre & steps & middle & _ & Hpre & _ & -> & Hcase).
    assert (count_events is_forward_pass pre = 0%nat) as Hp0
      by (apply device_calls_count; [apply device_call_not_pass | exact Hpre]).
    unfold forward_passes.
    destruct Hcase as [[-> ->]|[-> (tail & -> & Htail)]].
    + rewrite !count_events_app, Hp0, pass_calls_passes.
      rewrite !omap_app, (device_calls_order _ Hpre), pass_calls_order.
      generalize (network_order g). intros N. cbn.
      by rewrite ?app_nil_r, <- ?app_assoc.
    + rewrite !count_events_app, Hp0, !pass_calls_passes.
      rewrite !omap_app, (device_calls_order _ Hpre), !pass_calls_order.
      generalize (network_order g). intros N.
      destruct Htail as [-> | ->]; cbn; by rewrite ?app_nil_r, <- ?app_assoc.
Qed.

Lemma layers_visited_in_network_order_witness :
  ∃ g' w' tr,
    Stub.run None false 2 (Stub.model 1 8 1 [1; 3]) (Stub.world 8 [45; 90; 12])
      = Done (g', w', tr) ∧
    omap layer_of tr
      = mjoin (replicate (2 * forward_passes tr)
                 (network_order (Stub.model 1 8 1 [1; 3]))).
Proof.
  eexists _, _, _. split; [vm_compute; reflexivity|].
  eapply (proj2 (@layers_visited_in_network_order Stub.Dev
                   (Stub.runtime 0%nat 1%nat None false)
                   (Stub.model 1 8 1 [1; 3])) true 2%nat
                (Stub.world 8 [45; 90; 12])).
  vm_compute; reflexivity.
Defined.

(** ** [StridedBatchGemmOp], set up and run *)

Lemma wired_with_params {float D : Type} (mm nn kk bh ms : Z)
    (op : @StridedBatchGemmOp.t float) (w : World D) :
  StridedBatchGemmOp.wired op w →
  StridedBatchGemmOp.wired (StridedBatchGemmOp.with_params mm nn kk bh ms op) w.
Proof. done. Qed.

(** X10.  Once the context is built, [forward()] launches one kernel with the
    parameters of the last set-up.  After the four-argument
    [before_forward] the stride of the first operand is [m * k], also when
    an earlier five-argument set-up had given a [max_seq]: the short form
    resets it.  After the five-argument form with a positive [max_seq] the
    stride is [max_seq * m] for a plain first operand and [max_seq * k] for
    a transposed one; a [max_seq] that is not positive changes nothing. *)
Theorem forward_uses_last_set_up {float D : Type}
    (kernel : @StridedBatchGemmOp.GemmCall float → D → D)
    (ctx : LSContext) (op : @StridedBatchGemmOp.t float) (w : World D)
    (m n k bh m0 n0 k0 bh0 ms : Z) :
  is_built ctx = true →
  StridedBatchGemmOp.wired op w →
  (∃ c, StridedBatchGemmOp.forward kernel true ctx
          (StridedBatchGemmOp.before_forward m n k bh
             (StridedBatchGemmOp.before_forward_max_seq m0 n0 k0 bh0 ms op)) w
        = Done (StridedBatchGemmOp.before_forward m n k bh op,
                StridedBatchGemmOp.launch kernel c w, [c]) ∧
        StridedBatchGemmOp.call_m c = m ∧ StridedBatchGemmOp.call_n c = n ∧
        StridedBatchGemmOp.call_k c = k ∧
        StridedBatchGemmOp.call_batch c = bh ∧
        StridedBatchGemmOp.call_stride_A c = int_mul m k ∧
        StridedBatchGemmOp.call_stride_B c = int_mul n k ∧
        StridedBatchGemmOp.call_stride_C c = int_mul m n) ∧
  (∃ c, StridedBatchGemmOp.forward kernel true ctx
          (StridedBatchGemmOp.before_forward_max_seq m n k bh ms op) w
        = Done (StridedBatchGemmOp.before_forward_max_seq m n k bh ms op,
                StridedBatchGemmOp.launch kernel c w, [c]) ∧
        StridedBatchGemmOp.call_stride_A c
          = (if 0 <? ms
             then int_mul ms (match StridedBatchGemmOp._op_AA op with
                              | NonTranspose => m
                              | Transpose => k
                              end)
             else int_mul m k) ∧
        StridedBatchGemmOp.call_stride_B c = int_mul n k ∧
        StridedBatchGemmOp.call_stride_C c = int_mul m n).
Proof.
  intros Hb ([pa Ha] & [pb Hpb] & [ch Hc]). split.
  - assert (StridedBatchGemmOp.parent
              (StridedBatchGemmOp.before_forward m n k bh
                 (StridedBatchGemmOp.before_forward_max_seq m0 n0 k0 bh0 ms op))
              0 w = Some pa) as Ha' by exact Ha.
    assert (StridedBatchGemmOp.parent
              (StridedBatchGemmOp.before_forward m n k bh
                 (StridedBatchGemmOp.before_forward_max_seq m0 n0 k0 bh0 ms op))
              1 w = Some pb) as Hpb' by exact Hpb.
    assert (StridedBatchGemmOp.child
              (StridedBatchGemmOp.before_forward m n k bh
                 (StridedBatchGemmOp.before_forward_max_seq m0 n0 k0 bh0 ms op))
              0 w = Some ch) as Hc' by exact Hc.
    unfold StridedBatchGemmOp.forward. rewrite Ha', Hpb', Hc', Hb. cbn.
    eexists. split; [reflexivity|]. cbn. by split_and!.
  - assert (StridedBatchGemmOp.parent
              (StridedBatchGemmOp.before_forward_max_seq m n k bh ms op)
              0 w = Some pa) as Ha' by exact Ha.
    assert (StridedBatchGemmOp.parent
              (StridedBatchGemmOp.before_forward_max_seq m n k bh ms op)
              1 w = Some pb) as Hpb' by exact Hpb.
    assert (StridedBatchGemmOp.child
              (StridedBatchGemmOp.before_forward_max_seq m n k bh ms op)
              0 w = Some ch) as Hc' by exact Hc.
    unfold StridedBatchGemmOp.forward. rewrite Ha', Hpb', Hc', Hb. cbn.
    eexists. split; [reflexivity|]. cbn.
    split_and!; try reflexivity; by destruct (0 <? ms).
Qed.

Lemma forward_uses_last_set_up_witness :
  ∃ c, StridedBatchGemmOp.forward Stub.gemm_kernel true {| _built := true |}
         (StridedBatchGemmOp.before_forward 2 3 4 6
            (StridedBatchGemmOp.before_forward_max_seq 5 5 5 5 64 Stub.gemm_op))
         (Stub.world 8 [45; 90; 12])
       = Done (StridedBatchGemmOp.before_forward 2 3 4 6 Stub.gemm_op,
               StridedBatchGemmOp.launch Stub.gemm_kernel c
                 (Stub.world 8 [45; 90; 12]), [c]) ∧
       StridedBatchGemmOp.call_stride_A c = int_mul 2 4.
Proof.
  destruct (forward_uses_last_set_up Stub.gemm_kernel {| _built := true |}
              Stub.gemm_op (Stub.world 8 [45; 90; 12]) 2 3 4 6 5 5 5 5 64
              eq_refl) as [(c & Hf & _ & _ & _ & _ & Hs & _) _].
  - repeat split; eexists; reflexivity.
  - exists c. split; [exact Hf | exact Hs].
Defined.

(** X11.  [forward()] and [backward()] of a wired operator always return,
    and never change the operator or the Variables.  They launch a kernel
    only when the context is built and the build has [LIGHTSEQ_cuda]: then
    [forward()] launches one kernel that writes the buffer of the child, and
    [backward()] launches two, the first writing the gradient of the first
    parent with the transposition of the second operand flipped, the second
    writing the gradient of the second parent with the transposition of the
    first operand flipped; otherwise nothing is launched and the world is
    as before.  An operator without parents cannot be run. *)
Theorem gemm_launches {float D : Type}
    (kernel : @StridedBatchGemmOp.GemmCall float → D → D) (cuda : bool)
    (ctx : LSContext) (op : @StridedBatchGemmOp.t float) (w : World D) :
  (StridedBatchGemmOp.wired op w →
   ∃ pa pb ch wf kf wb kb,
     StridedBatchGemmOp.parent op 0 w = Some pa ∧
     StridedBatchGemmOp.parent op 1 w = Some pb ∧
     StridedBatchGemmOp.child op 0 w = Some ch ∧
     StridedBatchGemmOp.forward kernel cuda ctx op w = Done (op, wf, kf) ∧
     StridedBatchGemmOp.backward kernel cuda ctx op w = Done (op, wb, kb) ∧
     graph wf = graph w ∧ graph wb = graph w ∧
     (if is_built ctx && cuda
      then (∃ c, kf = [c] ∧ StridedBatchGemmOp.call_C c = value ch ∧
                 StridedBatchGemmOp.call_A c = value pa ∧
                 StridedBatchGemmOp.call_B c = value pb) ∧
           (∃ c1 c2, kb = [c1; c2] ∧
                 StridedBatchGemmOp.call_C c1 = grad pa ∧
                 StridedBatchGemmOp.call_op_B c1
                   = StridedBatchGemmOp.flip (StridedBatchGemmOp._op_B op) ∧
                 StridedBatchGemmOp.call_C c2 = grad pb ∧
                 StridedBatchGemmOp.call_op_A c2
                   = StridedBatchGemmOp.flip (StridedBatchGemmOp._op_A op) ∧
                 StridedBatchGemmOp.call_B c2 = grad ch)
      else kf = [] ∧ kb = [] ∧ wf = w ∧ wb = w)) ∧
  (StridedBatchGemmOp.parents op = [] →
   StridedBatchGemmOp.forward kernel cuda ctx op w = Undefined ∧
   StridedBatchGemmOp.backward kernel cuda ctx op w = Undefined).
Proof.
  split.
  - intros ([pa Ha] & [pb Hpb] & [ch Hc]).
    exists pa, pb, ch.
    unfold StridedBatchGemmOp.forward, StridedBatchGemmOp.backward.
    rewrite Ha, Hpb, Hc.
    destruct (is_built ctx), cuda; cbn;
      eexists _, _, _, _; (split_and!; try reflexivity);
      first [ by eexists | by eexists _, _ | idtac ].
  - intros Hnone.
    unfold StridedBatchGemmOp.forward, StridedBatchGemmOp.backward,
      StridedBatchGemmOp.parent. rewrite Hnone. done.
Qed.

Lemma gemm_launches_witness :
  ∃ kf kb,
    (∃ wf, StridedBatchGemmOp.forward Stub.gemm_kernel true {| _built := true |}
             Stub.gemm_op (Stub.world 8 [45; 90; 12])
           = Done (Stub.gemm_op, wf, kf)) ∧
    (∃ wb, StridedBatchGemmOp.backward Stub.gemm_kernel true {| _built := true |}
             Stub.gemm_op (Stub.world 8 [45; 90; 12])
           = Done (Stub.gemm_op, wb, kb)) ∧
    length kf = 1%nat ∧ length kb = 2%nat.
Proof.
  destruct (proj1 (gemm_launches Stub.gemm_kernel true {| _built := true |}
                     Stub.gemm_op (Stub.world 8 [45; 90; 12])))
    as (pa & pb & ch & wf & kf & wb & kb & _ & _ & _ & Hf & Hb & _ & _ & H).
  - repeat split; eexists; reflexivity.
  - cbn in H. destruct H as [(c & -> & _) (c1 & c2 & -> & _)].
    exists [c], [c1; c2]. split_and!; [by eexists | by eexists | done | done].
Defined.

(** X12.  [operator()] wires the operator: with both inputs among the
    Variables and a fresh address for the result, the operator afterwards
    has the two inputs as its parents, in that order, and the new Variable as
    its only child; the other Variables, the device state and the step
    parameters are untouched, and the result can be run at once, which in
    the building phase launches nothing. *)
Theorem wire_then_forward {float D : Type}
    (kernel : @StridedBatchGemmOp.GemmCall float → D → D) (cuda : bool)
    (ctx : LSContext) (op : @StridedBatchGemmOp.t float) (w : World D)
    (result inpA inpB : addr) (v va vb : VariableNode) :
  graph w !! inpA = Some va → graph w !! inpB = Some vb →
  graph w !! result = None →
  is_built ctx = false →
  ∃ op' w',
    StridedBatchGemmOp.wire result v inpA inpB op w = (op', w', result) ∧
    StridedBatchGemmOp.parent op' 0 w' = Some va ∧
    StridedBatchGemmOp.parent op' 1 w' = Some vb ∧
    StridedBatchGemmOp.parent op' 2 w' = None ∧
    StridedBatchGemmOp.child op' 0 w' = Some v ∧
    StridedBatchGemmOp.child op' 1 w' = None ∧
    (∀ a, a ≠ result → graph w' !! a = graph w !! a) ∧
    dev w' = dev w ∧
    StridedBatchGemmOp._max_seq op' = StridedBatchGemmOp._max_seq op ∧
    StridedBatchGemmOp.forward kernel cuda ctx op' w' = Done (op', w', []) ∧
    StridedBatchGemmOp.backward kernel cuda ctx op' w' = Done (op', w', []).
Proof.
  intros Ha Hb Hfresh Hbuilt.
  assert (inpA ≠ result) as HneA by congruence.
  assert (inpB ≠ result) as HneB by congruence.
  eexists _, _. split; [reflexivity|].
  assert (∀ a, a ≠ result →
            (<[result := v]> (graph w) : gmap addr VariableNode) !! a
              = graph w !! a) as Hother.
  { intros a Hne. by rewrite lookup_insert_ne. }
  assert (StridedBatchGemmOp.parent
            (StridedBatchGemmOp.wire result v inpA inpB op w).1.1 0
            (StridedBatchGemmOp.wire result v inpA inpB op w).1.2 = Some va) as Hp0.
  { unfold StridedBatchGemmOp.parent. cbn. by rewrite Hother. }
  assert (StridedBatchGemmOp.parent
            (StridedBatchGemmOp.wire result v inpA inpB op w).1.1 1
            (StridedBatchGemmOp.wire result v inpA inpB op w).1.2 = Some vb) as Hp1.
  { unfold StridedBatchGemmOp.parent. cbn. by rewrite Hother. }
  assert (StridedBatchGemmOp.child
            (StridedBatchGemmOp.wire result v inpA inpB op w).1.1 0
            (StridedBatchGemmOp.wire result v inpA inpB op w).1.2 = Some v) as Hc0.
  { unfold StridedBatchGemmOp.child. cbn. by rewrite lookup_insert_eq. }
  cbn [StridedBatchGemmOp.wire fst snd] in Hp0, Hp1, Hc0.
  split_and!; try done.
  - unfold StridedBatchGemmOp.forward. rewrite Hp0, Hp1, Hc0, Hbuilt. done.
  - unfold StridedBatchGemmOp.backward. rewrite Hp0, Hp1, Hc0, Hbuilt. done.
Qed.

Lemma wire_then_forward_witness :
  ∃ op' w',
    StridedBatchGemmOp.wire 7%nat (Stub.token_variable "StridedBatchGemmOp_out" 7 8)
      0%nat 1%nat Stub.gemm_op (Stub.world 8 [45; 90; 12]) = (op', w', 7%nat) ∧
    StridedBatchGemmOp.forward Stub.gemm_kernel true {| _built := false |} op' w'
      = Done (op', w', []).
Proof.
  destruct (wire_then_forward Stub.gemm_kernel true {| _built := false |}
              Stub.gemm_op (Stub.world 8 [45; 90; 12]) 7%nat 0%nat 1%nat
              (Stub.token_variable "StridedBatchGemmOp_out" 7 8)
              (Stub.token_variable "inp_tokens" 0 8)
              (Stub.token_variable "out_tokens" 1 8)
              eq_refl eq_refl eq_refl eq_refl)
    as (op' & w' & Hw & _ & _ & _ & _ & _ & _ & _ & _ & Hf & _).
  exists op', w'. split; [exact Hw | exact Hf].
Defined.

(** ** The example driver *)

Lemma next_token_range (r : Z) :
  0 <= r → 1000 <= Example.next_token r <= 9999.
Proof.
  intros Hr. unfold Example.next_token.
  pose proof (Z.rem_bound_pos r 9000 Hr ltac:(lia)) as Hrem.
  rewrite int_add_exact by (unfold is_int, INT_MIN, INT_MAX; lia). lia.
Qed.

Lemma fill_host_input_fold {A : Type} (rand : nat → Z) (rows : list A)
    (acc : list Z) :
  (∀ k, 0 <= rand k) →
  Forall (λ x, 1000 <= x <= 9999) acc →
  length (foldl (λ host_input _,
                   host_input ++ [Example.next_token (rand (length host_input))])
                acc rows) = (length acc + length rows)%nat ∧
  Forall (λ x, 1000 <= x <= 9999)
    (foldl (λ host_input _,
              host_input ++ [Example.next_token (rand (length host_input))])
           acc rows) ∧
  ∀ k, (length acc ≤ k < length acc + length rows)%nat →
       foldl (λ host_input _,
                host_input ++ [Example.next_token (rand (length host_input))])
             acc rows !! k = Some (Example.next_token (rand k)).
Proof.
  intros Hrand. revert acc. induction rows as [|x rows IH]; intros acc Hacc.
  - simpl. split_and!; [lia | exact Hacc | intros k Hk; lia].
  - simpl.
    destruct (IH (acc ++ [Example.next_token (rand (length acc))]))
      as (Hlen & Hall & Hnth).
    { apply Forall_app. split; [exact Hacc|].
      repeat constructor; apply next_token_range, Hrand. }
    rewrite length_app in Hlen, Hnth. simpl in Hlen, Hnth.
    split_and!; [lia | exact Hall |].
    intros k Hk. destruct (decide (k = length acc)) as [->|Hne].
    + clear Hnth.
      assert (∀ rows' (acc' : list Z) (y : Z) (i : nat),
                acc' !! i = Some y →
                foldl (λ host_input (_ : A),
                         host_input ++
                         [Example.next_token (rand (length host_input))])
                      acc' rows' !! i = Some y) as Hkeep.
      { induction rows' as [|x' rows' IH']; intros acc' y i Hi; [exact Hi|].
        simpl. apply IH'. by apply lookup_app_l_Some. }
      apply Hkeep. rewrite lookup_app_r by lia.
      by rewrite Nat.sub_diag.
    + apply Hnth. lia.
Qed.

(** X13.  The input that the example driver generates has
    [max_batch_size * batch_seq_len] elements (none when either is not
    positive), the element at position [p] is made from the [p]-th value of
    [rand()], and, [rand()] being non-negative, every element is a token id
    between 1000 and 9999.  For non-negative sizes the byte count that the
    driver allocates on the device and copies is four times that number of
    elements. *)
Theorem host_input_tokens (rand : nat → Z) (max_batch_size batch_seq_len : Z) :
  (∀ k, 0 <= rand k) →
  length (Example.fill_host_input rand max_batch_size batch_seq_len)
    = (Z.to_nat max_batch_size * Z.to_nat batch_seq_len)%nat ∧
  Forall (λ x, 1000 <= x <= 9999)
    (Example.fill_host_input rand max_batch_size batch_seq_len) ∧
  (∀ p x,
     Example.fill_host_input rand max_batch_size batch_seq_len !! p = Some x →
     x = Example.next_token (rand p)) ∧
  (0 <= max_batch_size <= INT_MAX → 0 <= batch_seq_len <= INT_MAX →
   Example.input_bytes max_batch_size batch_seq_len
     = sizeof_int *
       Z.of_nat
         (length (Example.fill_host_input rand max_batch_size batch_seq_len))).
Proof.
  intros Hrand. unfold Example.fill_host_input.
  destruct (fill_host_input_fold rand
              (i ← seqZ 0 max_batch_size; j ← seqZ 0 batch_seq_len; [(i, j)])
              [] Hrand ltac:(constructor)) as (Hlen & Hall & Hnth).
  assert (length (i ← seqZ 0 max_batch_size; j ← seqZ 0 batch_seq_len; [(i, j)])
            = (Z.to_nat max_batch_size * Z.to_nat batch_seq_len)%nat) as Hrows.
  { rewrite (length_bind_const _ _ (Z.to_nat batch_seq_len)).
    - by rewrite length_seqZ.
    - intros i. rewrite (length_bind_const _ _ 1%nat) by done.
      rewrite length_seqZ. lia. }
  simpl in Hlen. rewrite Hrows in Hlen, Hnth.
  split_and!.
  - exact Hlen.
  - exact Hall.
  - intros p x Hp. pose proof (lookup_lt_Some _ _ _ Hp) as Hlt.
    rewrite Hlen in Hlt. rewrite Hnth in Hp by (cbn [length]; lia). congruence.
  - intros HB HS. rewrite Hlen.
    unfold Example.input_bytes, size_t_mul, size_t_of_int, sizeof_int, INT_MAX in *.
    rewrite Nat2Z.inj_mul, !Z2Nat.id by lia.
    assert (0 <= max_batch_size * batch_seq_len <= (2 ^ 31 - 1) * (2 ^ 31 - 1))
      by nia.
    assert (4 * max_batch_size * batch_seq_len
              = 4 * (max_batch_size * batch_seq_len)) as Hassoc by lia.
    rewrite (Z.mod_small max_batch_size) by lia.
    rewrite (Z.mod_small batch_seq_len) by lia.
    rewrite (Z.mod_small (4 * max_batch_size)) by lia.
    rewrite Hassoc. rewrite Z.mod_small by lia. lia.
Qed.

Lemma host_input_tokens_witness :
  length (Example.fill_host_input (λ k, Z.of_nat k * 7919) 2 3) = 6%nat ∧
  Forall (λ x, 1000 <= x <= 9999)
    (Example.fill_host_input (λ k, Z.of_nat k * 7919) 2 3).
Proof.
  destruct (host_input_tokens (λ k, Z.of_nat k * 7919) 2 3 ltac:(intros k; cbv beta; lia))
    as (Hlen & Hall & _).
  split; [exact Hlen | exact Hall].
Defined.
